(** * The trace registry of pkg/gadgets/interface.go

    A shallow embedding of [BaseFactory] and of its four methods
    ([Initialize], [LookupOrCreate], [Delete], [Operations]).

    The methods are written once, as programs over the primitive actions the
    Go code performs on the receiver (mutex, map, logger, callbacks).  The
    programs are then given two readings:
    - [run]: one goroutine runs a method to completion;
    - [step]: several goroutines interleave, one primitive action at a time.

    Modelling conventions.
    - A value of type [interface{}] is [option V]: [None] is Go's [nil].
    - [traces] is [option (gmap string iface)]: [None] is the nil map of the
      zero-valued struct.  Reading and [delete] on a nil map are allowed in
      Go, an assignment to an entry of a nil map panics.
    - The callbacks ([newTrace], a gadget's [DeleteTrace]) are functions on a
      state [W] of their own: they compute a result and may change [W], they
      return normally and do not call back into the factory (the mutex is
      not reentrant).
    - Every state carries the history of the primitive actions performed so
      far; it is only written, never read, by the programs. *)

From stdpp Require Import gmap strings list relations.

Set Default Proof Using "Type".

(** ** Method sets and the dynamic type assertion *)

Module GoTypes.

(** The method names a type offers. *)
Definition method_set := list string.

(** [implements ms i]: a type with methods [ms] satisfies the interface
    whose method names are [i]. *)
Definition implements (ms : method_set) (i : list string) : bool :=
  forallb (λ m, bool_decide (m ∈ ms)) i.

(** interface.go:29-43 *)
Definition TraceFactory : list string :=
  ["Initialize"; "Delete"; "Operations"].

(** interface.go:66-72: [TraceFactory] plus [DeleteTrace]. *)
Definition TraceFactoryWithDeleteTrace : list string :=
  TraceFactory ++ ["DeleteTrace"].

(** The methods declared with receiver [*BaseFactory], interface.go:131-177.
    The struct has no embedded field, so nothing is promoted into it. *)
Definition BaseFactory_ptr : method_set :=
  ["Initialize"; "LookupOrCreate"; "Delete"; "Operations"].

(** A gadget type [struct { gadgets.BaseFactory; ... }]: its own methods
    followed by the methods promoted from the embedded field. *)
Definition embedding (own : method_set) : method_set :=
  own ++ filter (λ m, m ∉ own) BaseFactory_ptr.

End GoTypes.

(** ** Data model *)

Section Registry.

(** [V]: the dynamic values gadgets store as traces. [W]: what the
    callbacks act on. [Res], [Cli]: implementations of [Resolver] and of
    [client.Client]. *)
Context {V W Res Cli : Type}.

(** [interface{}] *)
Definition iface : Type := option V.

(** [func() interface{}] *)
Definition ctor : Type := W → iface * W.

(** The body of a [DeleteTrace(name string, trace interface{})] method. *)
Definition hook : Type := string → iface → W → W.

(** interface.go:76-87 *)
Record TraceOperation := {
  Operation : string → W → W;
  Doc : string;
  Order : Z
}.

(** interface.go:123-129 *)
Record BaseFactory := {
  Resolver : option Res;
  Client : option Cli;
  mu : bool;
  traces : option (gmap string iface)
}.

(** The zero value [BaseFactory{}]. *)
Definition zero_BaseFactory : BaseFactory :=
  {| Resolver := None; Client := None; mu := false; traces := None |}.

(** [trace, ok := f.traces[name]]: [None] is [ok = false]. *)
Definition lookup_trace (f : BaseFactory) (name : string) : option iface :=
  traces f ≫= λ m, m !! name.

(** What a primitive action leaves in the history. *)
Inductive event :=
| EvLock
| EvUnlock
| EvLog (msg : string)
| EvNewTrace (result : iface)
| EvDeleteTrace (name : string) (trace : iface)
| EvStore (name : string) (trace : iface)
| EvRemove (name : string).

Record state := {
  fac : BaseFactory;
  ext : W;
  history : list event
}.

Definition zero_state (w : W) : state :=
  {| fac := zero_BaseFactory; ext := w; history := [] |}.

Definition with_fac (s : state) (f : BaseFactory) (e : list event) : state :=
  {| fac := f; ext := ext s; history := history s ++ e |}.

Definition set_fac (s : state) (f : BaseFactory) : state :=
  {| fac := f; ext := ext s; history := history s |}.

Definition set_mu (f : BaseFactory) (b : bool) : BaseFactory :=
  {| Resolver := Resolver f; Client := Client f; mu := b; traces := traces f |}.

Definition set_traces (f : BaseFactory) (t : option (gmap string iface))
  : BaseFactory :=
  {| Resolver := Resolver f; Client := Client f; mu := mu f; traces := t |}.

(** ** Primitive actions *)

Inductive action : Type → Type :=
| MuLock : action unit
| MuUnlock : action unit
| LogInfof (msg : string) : action unit
| TracesIsNil : action bool
| TracesMake : action unit
| TracesGet (name : string) : action (option iface)
| TracesSet (name : string) (trace : iface) : action unit
| TracesDelete (name : string) : action unit
| CallNewTrace (newTrace : ctor) : action iface
| CallDeleteTrace (h : hook) (name : string) (trace : iface) : action unit
| SetResolver (r : option Res) : action unit
| SetClient (c : option Cli) : action unit.

Inductive outcome (A : Type) :=
| Returned (a : A) (s : state)
| Blocked
| Panicked.
Global Arguments Returned {A} a s.
Global Arguments Blocked {A}.
Global Arguments Panicked {A}.

(** One action on the state. [Lock] on a held mutex does not return;
    [Unlock] of a free mutex and a store into a nil map are fatal. *)
Definition exec {X} (a : action X) (s : state) : outcome X :=
  match a in action X return outcome X with
  | MuLock =>
      if mu (fac s) then Blocked
      else Returned tt (with_fac s (set_mu (fac s) true) [EvLock])
  | MuUnlock =>
      if mu (fac s)
      then Returned tt (with_fac s (set_mu (fac s) false) [EvUnlock])
      else Panicked
  | LogInfof msg => Returned tt (with_fac s (fac s) [EvLog msg])
  | TracesIsNil =>
      Returned (bool_decide (traces (fac s) = None)) s
  | TracesMake => Returned tt (set_fac s (set_traces (fac s) (Some ∅)))
  | TracesGet name => Returned (lookup_trace (fac s) name) s
  | TracesSet name trace =>
      match traces (fac s) with
      | None => Panicked
      | Some m =>
          Returned tt (with_fac s (set_traces (fac s) (Some (<[name:=trace]> m)))
                         [EvStore name trace])
      end
  | TracesDelete name =>
      Returned tt (with_fac s (set_traces (fac s) (delete name <$> traces (fac s)))
                     [EvRemove name])
  | CallNewTrace newTrace =>
      let r := newTrace (ext s) in
      Returned r.1 {| fac := fac s; ext := r.2;
                      history := history s ++ [EvNewTrace r.1] |}
  | CallDeleteTrace h name trace =>
      Returned tt {| fac := fac s; ext := h name trace (ext s);
                     history := history s ++ [EvDeleteTrace name trace] |}
  | SetResolver r =>
      Returned tt (set_fac s {| Resolver := r; Client := Client (fac s);
                                mu := mu (fac s); traces := traces (fac s) |})
  | SetClient c =>
      Returned tt (set_fac s {| Resolver := Resolver (fac s); Client := c;
                                mu := mu (fac s); traces := traces (fac s) |})
  end.

(** ** Programs *)

Inductive prog (A : Type) : Type :=
| Ret (a : A)
| Act {X : Type} (a : action X) (k : X → prog A).
Global Arguments Ret {A} a.
Global Arguments Act {A X} a k.

Fixpoint prog_bind {A B} (f : A → prog B) (p : prog A) : prog B :=
  match p with
  | Ret a => f a
  | Act a k => Act a (λ x, prog_bind f (k x))
  end.

Global Instance prog_mret : MRet prog := λ A, @Ret A.
Global Instance prog_mbind : MBind prog := λ A B, @prog_bind A B.

Definition act {X} (a : action X) : prog X := Act a Ret.

(** A goroutine alone runs a program to its end. *)
Fixpoint run {A} (p : prog A) (s : state) : outcome A :=
  match p with
  | Ret a => Returned a s
  | Act a k =>
      match exec a s with
      | Returned x s' => run (k x) s'
      | Blocked => Blocked
      | Panicked => Panicked
      end
  end.

(** ** The methods of [*BaseFactory] *)

(** interface.go:131-134 *)
Definition Initialize (r : option Res) (c : option Cli) : prog unit :=
  act (SetResolver r);;
  act (SetClient c).

(** interface.go:136-156. The deferred [Unlock] runs at each [return]. *)
Definition LookupOrCreate (name : string) (newTrace : option ctor) : prog iface :=
  act MuLock;;
  let create : prog iface :=
    match newTrace with
    | None => act MuUnlock;; mret None
    | Some new =>
        trace ← act (CallNewTrace new);
        act (TracesSet name trace);;
        act MuUnlock;;
        mret trace
    end in
  isnil ← act TracesIsNil;
  if isnil : bool then
    act TracesMake;;
    create
  else
    r ← act (TracesGet name);
    match r with
    | Some trace => act MuUnlock;; mret trace
    | None => create
    end.

(** The result of [x.(TraceFactoryWithDeleteTrace)] for a value [x] whose
    dynamic type has the methods [ms], [impl] being that type's
    [DeleteTrace] method if it declares one. *)
Definition assert_WithDeleteTrace (ms : GoTypes.method_set) (impl : option hook)
  : option hook :=
  if GoTypes.implements ms GoTypes.TraceFactoryWithDeleteTrace then impl else None.

(** interface.go:158-173, with the dynamic type of the asserted value left
    open: its method set [ms] and its [DeleteTrace] method [impl]. *)
Definition Delete_asserting (ms : GoTypes.method_set) (impl : option hook)
    (name : string) : prog unit :=
  act (LogInfof ("Deleting " +:+ name));;
  act MuLock;;
  r ← act (TracesGet name);
  match r with
  | None =>
      act (LogInfof ("Deleting " +:+ name +:+ ": does not exist"));;
      act MuUnlock
  | Some trace =>
      match assert_WithDeleteTrace ms impl with
      | Some factory => act (CallDeleteTrace factory name trace)
      | None => mret tt
      end;;
      act (TracesDelete name);;
      act MuUnlock
  end.

(** interface.go:158-173. The asserted value is [TraceFactory(f)] with
    [f : *BaseFactory]: its dynamic type is [*BaseFactory], which declares
    no [DeleteTrace]. *)
Definition Delete (name : string) : prog unit :=
  Delete_asserting GoTypes.BaseFactory_ptr None name.

(** interface.go:175-177 *)
Definition Operations : prog (gmap string TraceOperation) :=
  mret ∅.

(** A gadget [struct { gadgets.BaseFactory }] that may declare a
    [DeleteTrace] method of its own. [Delete] is promoted from the
    embedded field: the call [g.Delete(name)] is [g.BaseFactory.Delete(name)]
    and the receiver inside is the embedded [*BaseFactory]. *)
Record Gadget := {
  gadget_DeleteTrace : option hook
}.

Definition Gadget_methods (g : Gadget) : GoTypes.method_set :=
  GoTypes.embedding (match gadget_DeleteTrace g with
                     | Some _ => ["DeleteTrace"]
                     | None => []
                     end).

Definition Gadget_Delete (g : Gadget) (name : string) : prog unit :=
  Delete name.

(** ** Reading the history *)

Definition is_new_trace (e : event) : bool :=
  match e with EvNewTrace _ => true | _ => false end.

Definition is_delete_trace (e : event) : bool :=
  match e with EvDeleteTrace _ _ => true | _ => false end.

Definition stores_of (name : string) (e : event) : bool :=
  match e with EvStore n _ => bool_decide (n = name) | _ => false end.

Definition removes_of (name : string) (e : event) : bool :=
  match e with EvRemove n => bool_decide (n = name) | _ => false end.

(** How many events of a history satisfy [p]. *)
Definition count (p : event → bool) (h : list event) : nat :=
  length (filter (λ e, p e = true) h).

(** The number of constructor invocations in a history. *)
Definition new_trace_calls (h : list event) : nat := count is_new_trace h.

(** The state after a method that took and released the lock: the map is
    [t], the callbacks' state is [w], and [e] was appended to the history. *)
Definition after (s : state) (t : option (gmap string iface)) (w : W)
    (e : list event) : state :=
  {| fac := set_traces (fac s) t; ext := w; history := history s ++ e |}.

(** The entries of the store, as (name, value) pairs. *)
Definition entries (f : BaseFactory) : list (string * iface) :=
  match traces f with
  | Some m => map_to_list m
  | None => []
  end.

(** ** Sequences of calls by one goroutine *)

Inductive call :=
| CallInitialize (r : option Res) (c : option Cli)
| CallLookupOrCreate (name : string) (newTrace : option ctor)
| CallDelete (name : string).

Definition discard {A} (o : outcome A) : outcome unit :=
  match o with
  | Returned _ s => Returned tt s
  | Blocked => Blocked
  | Panicked => Panicked
  end.

Definition run_call (c : call) (s : state) : outcome unit :=
  match c with
  | CallInitialize r c => run (Initialize r c) s
  | CallLookupOrCreate name newTrace => discard (run (LookupOrCreate name newTrace) s)
  | CallDelete name => run (Delete name) s
  end.

Fixpoint run_calls (cs : list call) (s : state) : outcome unit :=
  match cs with
  | [] => Returned tt s
  | c :: cs =>
      match run_call c s with
      | Returned _ s' => run_calls cs s'
      | Blocked => Blocked
      | Panicked => Panicked
      end
  end.

Definition deletes (name : string) (c : call) : bool :=
  match c with
  | CallDelete n => bool_decide (n = name)
  | _ => false
  end.

(** The store and the history agree on [name]: the stores under [name]
    outnumber the removals by one when [name] has an entry, and by none
    when it has not. *)
Definition accounted (s : state) (name : string) : Prop :=
  count (stores_of name) (history s)
  = count (removes_of name) (history s)
    + (if lookup_trace (fac s) name is Some _ then 1 else 0).

(** ** Several goroutines *)

(** One action of a goroutine on the shared state; [None] when the
    goroutine has returned or cannot proceed. *)
Definition thread_step {A} (p : prog A) (s : state) : option (prog A * state) :=
  match p with
  | Ret _ => None
  | Act a k =>
      match exec a s with
      | Returned x s' => Some (k x, s')
      | Blocked | Panicked => None
      end
  end.

Record config (A : Type) := {
  shared : state;
  threads : list (prog A)
}.
Global Arguments shared {A} c.
Global Arguments threads {A} c.

Inductive step {A} : config A → config A → Prop :=
| step_thread (c : config A) (i : nat) (p p' : prog A) (s' : state) :
    threads c !! i = Some p →
    thread_step p (shared c) = Some (p', s') →
    step c {| shared := s'; threads := <[i:=p']> (threads c) |}.

(** A goroutine running [LookupOrCreate], whose first action is [Lock] and
    whose last is the deferred [Unlock], is between the two: its next action
    is not [Lock], and it has not returned. *)
Definition in_critical {A} (p : prog A) : bool :=
  match p with
  | Ret _ => false
  | Act MuLock _ => false
  | Act _ _ => true
  end.

(** Let goroutine [i] perform its next action. *)
Definition step_at {A} (i : nat) (c : config A) : option (config A) :=
  p ← threads c !! i;
  r ← thread_step p (shared c);
  Some {| shared := r.2; threads := <[i:=r.1]> (threads c) |}.

(** Let the goroutines act in the order [sched] names them. *)
Fixpoint run_schedule {A} (sched : list nat) (c : config A) : option (config A) :=
  match sched with
  | [] => Some c
  | i :: sched => step_at i c ≫= run_schedule sched
  end.

(** The places of [LookupOrCreate name (Some new)] a goroutine can be at. *)
Inductive pc :=
| AtLock                     (* interface.go:137 *)
| AtNilCheck                 (* :139 *)
| AtMake                     (* :140 *)
| AtGet                      (* :142 *)
| AtCall                     (* :152 *)
| AtStore (trace : iface)    (* :153 *)
| AtUnlock (trace : iface)   (* :138, deferred *)
| Done (trace : iface).

Section Code.
Variables (name : string) (new : ctor).

Definition code_unlock (trace : iface) : prog iface :=
  Act MuUnlock (λ _, Ret trace).
Definition code_store (trace : iface) : prog iface :=
  Act (TracesSet name trace) (λ _, code_unlock trace).
Definition code_call : prog iface :=
  Act (CallNewTrace new) code_store.
Definition code_make : prog iface :=
  Act TracesMake (λ _, code_call).
Definition code_get : prog iface :=
  Act (TracesGet name)
    (λ r, match r with Some trace => code_unlock trace | None => code_call end).
Definition code_nil_check : prog iface :=
  Act TracesIsNil (λ isnil : bool, if isnil then code_make else code_get).

(** The rest of the method at each place. *)
Definition code (l : pc) : prog iface :=
  match l with
  | AtLock => LookupOrCreate name (Some new)
  | AtNilCheck => code_nil_check
  | AtMake => code_make
  | AtGet => code_get
  | AtCall => code_call
  | AtStore trace => code_store trace
  | AtUnlock trace => code_unlock trace
  | Done trace => Ret trace
  end.

(** The same action, place to place. *)
Definition pc_step (l : pc) (s : state) : option (pc * state) :=
  match l with
  | AtLock =>
      if mu (fac s) then None
      else Some (AtNilCheck, with_fac s (set_mu (fac s) true) [EvLock])
  | AtNilCheck =>
      Some (if bool_decide (traces (fac s) = None) then AtMake else AtGet, s)
  | AtMake => Some (AtCall, set_fac s (set_traces (fac s) (Some ∅)))
  | AtGet =>
      Some (match lookup_trace (fac s) name with
            | Some trace => AtUnlock trace
            | None => AtCall
            end, s)
  | AtCall =>
      Some (AtStore (new (ext s)).1,
            {| fac := fac s; ext := (new (ext s)).2;
               history := history s ++ [EvNewTrace (new (ext s)).1] |})
  | AtStore trace =>
      match traces (fac s) with
      | None => None
      | Some m =>
          Some (AtUnlock trace,
                with_fac s (set_traces (fac s) (Some (<[name:=trace]> m)))
                  [EvStore name trace])
      end
  | AtUnlock trace =>
      if mu (fac s)
      then Some (Done trace, with_fac s (set_mu (fac s) false) [EvUnlock])
      else None
  | Done _ => None
  end.

Definition idle (l : pc) : bool :=
  match l with
  | AtLock | Done _ => true
  | _ => false
  end.

(** An upper bound on the actions a goroutine at [l] still performs. *)
Definition weight (l : pc) : nat :=
  match l with
  | AtLock => 7
  | AtNilCheck => 6
  | AtMake | AtGet => 5
  | AtCall => 4
  | AtStore _ => 3
  | AtUnlock _ => 1
  | Done _ => 0
  end.

(** *** What holds while goroutines race for a name

    [s0] is the state the goroutines start from. The race goes through three
    phases: nothing constructed yet, constructed but not yet stored, stored. *)

Variable s0 : state.

Definition fresh (s : state) : Prop :=
  lookup_trace (fac s) name = None
  ∧ ext s = ext s0
  ∧ new_trace_calls (history s) = new_trace_calls (history s0).

Definition built (s : state) : Prop :=
  lookup_trace (fac s) name = None
  ∧ is_Some (traces (fac s))
  ∧ ext s = (new (ext s0)).2
  ∧ new_trace_calls (history s) = S (new_trace_calls (history s0)).

Definition stored (s : state) : Prop :=
  lookup_trace (fac s) name = Some (new (ext s0)).1
  ∧ ext s = (new (ext s0)).2
  ∧ new_trace_calls (history s) = S (new_trace_calls (history s0)).

(** The phases and [pc_ok] read the map, the callbacks' state and the number
    of constructions, nothing else. *)
Definition same_view (s s' : state) : Prop :=
  traces (fac s') = traces (fac s)
  ∧ ext s' = ext s
  ∧ new_trace_calls (history s') = new_trace_calls (history s).

(** What a goroutine at [l] can rely on. *)
Definition pc_ok (s : state) (l : pc) : Prop :=
  match l with
  | AtLock => True
  | AtNilCheck => fresh s ∨ stored s
  | AtMake => fresh s ∧ traces (fac s) = None
  | AtGet => (fresh s ∨ stored s) ∧ is_Some (traces (fac s))
  | AtCall => fresh s ∧ is_Some (traces (fac s))
  | AtStore trace => trace = (new (ext s0)).1 ∧ built s
  | AtUnlock trace => trace = (new (ext s0)).1 ∧ stored s
  | Done trace => trace = (new (ext s0)).1 ∧ stored s
  end.

(** The invariant of the race: every goroutine can rely on [pc_ok]; while
    the mutex is held exactly one goroutine is past [Lock]; while it is
    free none is, and the name is either untouched or stored. *)
Definition race_inv (s : state) (ls : list pc) : Prop :=
  (∀ j l, ls !! j = Some l → pc_ok s l)
  ∧ if mu (fac s)
    then ∃ i l, ls !! i = Some l ∧ idle l = false
                ∧ ∀ j l', j ≠ i → ls !! j = Some l' → idle l' = true
    else (∀ j l, ls !! j = Some l → idle l = true) ∧ (fresh s ∨ stored s).

(** The goroutines at places [ls] over the shared state [s]. *)
Definition at_places (s : state) (ls : list pc) : config iface :=
  {| shared := s; threads := code <$> ls |}.

Definition total_weight (ls : list pc) : nat := sum_list (weight <$> ls).

End Code.

End Registry.

Global Arguments iface : clear implicits.
Global Arguments ctor : clear implicits.
Global Arguments hook : clear implicits.
Global Arguments BaseFactory : clear implicits.
Global Arguments event : clear implicits.
Global Arguments state : clear implicits.
Global Arguments TraceOperation : clear implicits.
Global Arguments Gadget : clear implicits.
Global Arguments call : clear implicits.
Global Arguments pc : clear implicits.
Global Arguments config : clear implicits.

(** ** Sample inputs

    Traces are named by strings, and the callbacks count on a [nat]. *)

Definition makeFoo : ctor string nat := λ w, (Some "Foo", S w).
Definition makeBar : ctor string nat := λ w, (Some "Bar", S w).
Definition makeNil : ctor string nat := λ w, (None, S w).

(** A constructor that builds another trace at each invocation. *)
Definition makeNth : ctor string nat :=
  λ w, (Some (if decide (w = 0) then "first" else "later"), S w).

Definition teardown : hook string nat := λ _ _ w, w + 100.

(** A gadget with a [DeleteTrace] of its own. *)
Definition probe_gadget : Gadget string nat :=
  {| gadget_DeleteTrace := Some teardown |}.

(** An initialized factory that holds the trace ["t1"]. *)
Definition one_trace : state string nat () () :=
  {| fac := {| Resolver := Some (); Client := Some (); mu := false;
               traces := Some {["t1" := Some "Foo"]} |};
     ext := 1;
     history := [] |}.

(** A factory nobody has touched. *)
Definition untouched : state string nat () () := zero_state 0.

(** Two goroutines about to call [LookupOrCreate("t1", makeNth)]. *)
Definition two_callers : config string nat () () (iface string) :=
  {| shared := untouched;
     threads := replicate 2 (LookupOrCreate "t1" (Some makeNth)) |}.

(** The second goroutine is let through first, the first one follows. *)
Definition second_first : list nat := [1; 1; 1; 1; 1; 1; 0; 0; 0; 0].

Definition two_callers_done : config string nat () () (iface string) :=
  {| shared :=
       {| fac := {| Resolver := None; Client := None; mu := false;
                    traces := Some {["t1" := Some "first"]} |};
          ext := 1;
          history := [EvLock; EvNewTrace (Some "first");
                      EvStore "t1" (Some "first"); EvUnlock; EvLock; EvUnlock] |};
     threads := [Ret (Some "first"); Ret (Some "first")] |}.


(** ** Calls as goroutines

    What the methods do to the factory and to the callbacks' state, apart
    from what they log, and what it means for goroutines to have run one
    after the other. *)

Section Serial.

Context {V W Res Cli : Type}.

Local Abbreviation state := (state V W Res Cli).
Local Abbreviation call := (call V W Res Cli).
Local Abbreviation prog := (@prog V W Res Cli).
Local Abbreviation outcome := (@outcome V W Res Cli).

Definition is_log (e : event V) : bool :=
  match e with EvLog _ => true | _ => false end.

Definition is_lock (e : event V) : bool :=
  match e with EvLock => true | _ => false end.

Definition is_unlock (e : event V) : bool :=
  match e with EvUnlock => true | _ => false end.

Definition is_store (e : event V) : bool :=
  match e with EvStore _ _ => true | _ => false end.

Definition is_remove (e : event V) : bool :=
  match e with EvRemove _ => true | _ => false end.

(** A history without its log lines. *)
Definition unlogged (h : list (event V)) : list (event V) :=
  filter (λ e, is_log e = false) h.

(** Two states differ at most in what was logged. *)
Definition same_effect (s s' : state) : Prop :=
  fac s = fac s' ∧ ext s = ext s' ∧ unlogged (history s) = unlogged (history s').

Definition same_outcome {A} (o o' : outcome A) : Prop :=
  match o, o' with
  | Returned a s, Returned a' s' => a = a' ∧ same_effect s s'
  | Blocked, Blocked => True
  | Panicked, Panicked => True
  | _, _ => False
  end.

(** The name a call is about, if any. *)
Definition call_name (c : call) : option string :=
  match c with
  | CallInitialize _ _ => None
  | CallLookupOrCreate name _ => Some name
  | CallDelete name => Some name
  end.

(** A call as the body of a goroutine; a method without a result yields
    nil. *)
Definition call_prog (c : call) : prog (iface V) :=
  match c with
  | CallInitialize r cl => Initialize r cl;; mret None
  | CallLookupOrCreate name newTrace => LookupOrCreate name newTrace
  | CallDelete name => Delete name;; mret None
  end.

(** The calls that take the mutex. *)
Definition locks (c : call) : bool :=
  match c with
  | CallInitialize _ _ => false
  | _ => true
  end.

(** The programs [ps], one after the other, with their results. *)
Fixpoint run_all {A} (ps : list (prog A)) (s : state) : outcome (list A) :=
  match ps with
  | [] => Returned [] s
  | p :: ps =>
      match run p s with
      | Returned a s' =>
          match run_all ps s' with
          | Returned l s'' => Returned (a :: l) s''
          | Blocked => Blocked
          | Panicked => Panicked
          end
      | Blocked => Blocked
      | Panicked => Panicked
      end
  end.

(** A program past its [Lock]: actions other than [Lock] and [Unlock], then
    [Unlock] and the return. *)
Fixpoint inside {A} (p : prog A) : Prop :=
  match p with
  | Ret _ => False
  | Act a k =>
      match a in action X return (X → prog A) → (X → Prop) → Prop with
      | MuLock => λ _ _, False
      | MuUnlock => λ k _, ∃ v, k () = Ret v
      | _ => λ _ rec, ∀ x, rec x
      end k (λ x, inside (k x))
  end.

(** A program before its [Lock]: it may log, then it locks and is [inside]. *)
Fixpoint waiting {A} (p : prog A) : Prop :=
  match p with
  | Ret _ => False
  | Act a k =>
      match a in action X return (X → prog A) → (X → Prop) → Prop with
      | MuLock => λ k _, inside (k ())
      | LogInfof _ => λ _ rec, rec ()
      | _ => λ _ _, False
      end k (λ x, waiting (k x))
  end.

(** [t] is what is left of [p] before its [Lock]: they do the same. *)
Definition pending {A} (t p : prog A) : Prop :=
  ∀ s s', same_effect s s' → same_outcome (run t s) (run p s').


Definition is_ret {A} (p : prog A) : bool :=
  match p with Ret _ => true | Act _ _ => false end.


(** The goroutines of [c] run the programs [ps] from [s0]. Those listed in
    [order] have returned, and running them one after the other in that
    order gives their results and, log lines apart, the state [b]. The
    others wait for the mutex, except the one that holds it, which will
    leave the state it would have left running alone from [b]. *)
Definition serial_inv {A} (ps : list (prog A)) (s0 : state) (c : config V W Res Cli A)
    (order : list nat) (rs : list A) (b : state) : Prop :=
  length (threads c) = length ps
  ∧ NoDup order
  ∧ run_all (omap (ps !!.) order) s0 = Returned rs b
  ∧ mu (fac b) = false
  ∧ Forall2 (λ i v, threads c !! i = Some (Ret v)) order rs
  ∧ (∀ i t, threads c !! i = Some t → i ∉ order →
       ∃ p, ps !! i = Some p
            ∧ (waiting t ∧ pending t p
               ∨ inside t ∧ mu (fac (shared c)) = true
                 ∧ same_outcome (run t (shared c)) (run p b)))
  ∧ (∀ i j t t', threads c !! i = Some t → threads c !! j = Some t' →
                 inside t → inside t' → i = j)
  ∧ (mu (fac (shared c)) = false →
       same_effect b (shared c) ∧ ∀ i t, threads c !! i = Some t → ¬ inside t)
  ∧ (mu (fac (shared c)) = true → ∃ i t, threads c !! i = Some t ∧ inside t).

End Serial.

(** ** More sample inputs *)

(** The goroutines that make the calls [cs] on a factory in state [s]. *)
Definition goroutines (cs : list (call string nat () ())) (s : state string nat () ())
  : config string nat () () (iface string) :=
  {| shared := s; threads := call_prog <$> cs |}.

Definition create_and_delete : list (call string nat () ()) :=
  [CallLookupOrCreate "t1" (Some makeFoo); CallDelete "t1"].

Definition foo_and_bar : list (call string nat () ()) :=
  [CallLookupOrCreate "t1" (Some makeFoo); CallLookupOrCreate "t1" (Some makeBar)].

Definition busy_day : list (call string nat () ()) :=
  [CallLookupOrCreate "t1" (Some makeFoo);
   CallLookupOrCreate "t2" (Some makeBar);
   CallDelete "t1";
   CallLookupOrCreate "t1" None;
   CallDelete "t3"].


(** ** Counting in histories *)

Section History.

Context {V : Type}.

Implicit Types (p : event V → bool) (h : list (event V)).

Lemma count_app p h1 h2 : count p (h1 ++ h2) = count p h1 + count p h2.
Proof. unfold count. by rewrite filter_app, length_app. Qed.

Lemma count_nil p : count p [] = 0.
Proof. done. Qed.

Lemma count_cons p e h : count p (e :: h) = (if p e then 1 else 0) + count p h.
Proof.
  unfold count. destruct (p e) eqn:E.
  - by rewrite filter_cons_True.
  - rewrite filter_cons_False; [done | congruence].
Qed.

End History.

Ltac count_events :=
  unfold new_trace_calls; simpl;
  rewrite ?count_app, ?count_cons, ?count_nil; simpl; lia.

(** ** One goroutine: what each method returns and leaves behind *)

Section Sequential.

Context {V W Res Cli : Type}.

Local Abbreviation state := (state V W Res Cli).
Local Abbreviation BaseFactory := (BaseFactory V Res Cli).
Local Abbreviation ctor := (ctor V W).
Local Abbreviation hook := (hook V W).
Local Abbreviation iface := (iface V).

Implicit Types (s : state) (f : BaseFactory) (name : string) (v : iface).

Lemma set_traces_id f : set_traces f (traces f) = f.
Proof. by destruct f. Qed.

Lemma after_fac s e : fac (after s (traces (fac s)) (ext s) e) = fac s.
Proof. apply set_traces_id. Qed.

Ltac run_method :=
  intros;
  repeat match goal with
  | s : state |- _ => destruct s as [[? ? ? ?] ? ?]
  end;
  repeat (progress
    (unfold with_fac, set_fac, set_mu, set_traces, after, lookup_trace, act in *;
     simpl in *));
  simplify_eq/=; rewrite <- ?app_assoc; simpl.

Lemma run_LookupOrCreate_found s name newTrace v :
  mu (fac s) = false →
  lookup_trace (fac s) name = Some v →
  run (LookupOrCreate name newTrace) s
  = Returned v (after s (traces (fac s)) (ext s) [EvLock; EvUnlock]).
Proof.
  unfold LookupOrCreate. run_method.
  destruct traces0 as [m|]; simplify_eq/=.
  run_method. rewrite H0. by run_method.
Qed.

Lemma run_LookupOrCreate_nil s name :
  mu (fac s) = false →
  lookup_trace (fac s) name = None →
  run (LookupOrCreate name None) s
  = Returned None (after s (Some (default ∅ (traces (fac s)))) (ext s)
                     [EvLock; EvUnlock]).
Proof.
  unfold LookupOrCreate. run_method.
  destruct traces0 as [m|]; simplify_eq/=; run_method; [|done].
  rewrite H0. by run_method.
Qed.

Lemma run_LookupOrCreate_create s name new :
  mu (fac s) = false →
  lookup_trace (fac s) name = None →
  run (LookupOrCreate name (Some new)) s
  = Returned (new (ext s)).1
      (after s (Some (<[name:=(new (ext s)).1]> (default ∅ (traces (fac s)))))
         (new (ext s)).2
         [EvLock; EvNewTrace (new (ext s)).1; EvStore name (new (ext s)).1;
          EvUnlock]).
Proof.
  unfold LookupOrCreate. run_method.
  destruct traces0 as [m|]; simplify_eq/=; run_method; [|done].
  rewrite H0. by run_method.
Qed.

Lemma run_Delete_asserting_absent ms impl s name :
  mu (fac s) = false →
  lookup_trace (fac s) name = None →
  run (Delete_asserting ms impl name) s
  = Returned tt
      (after s (traces (fac s)) (ext s)
         [EvLog ("Deleting " +:+ name); EvLock;
          EvLog ("Deleting " +:+ name +:+ ": does not exist"); EvUnlock]).
Proof.
  unfold Delete_asserting. run_method. rewrite H0. by run_method.
Qed.

Lemma run_Delete_asserting_plain ms impl s name v :
  mu (fac s) = false →
  lookup_trace (fac s) name = Some v →
  assert_WithDeleteTrace ms impl = None →
  run (Delete_asserting ms impl name) s
  = Returned tt
      (after s (delete name <$> traces (fac s)) (ext s)
         [EvLog ("Deleting " +:+ name); EvLock; EvRemove name; EvUnlock]).
Proof.
  unfold Delete_asserting. run_method. rewrite H0, H1. by run_method.
Qed.

Lemma run_Delete_asserting_hooked ms impl s name v h :
  mu (fac s) = false →
  lookup_trace (fac s) name = Some v →
  assert_WithDeleteTrace ms impl = Some h →
  run (Delete_asserting ms impl name) s
  = Returned tt
      (after s (delete name <$> traces (fac s)) (h name v (ext s))
         [EvLog ("Deleting " +:+ name); EvLock; EvDeleteTrace name v;
          EvRemove name; EvUnlock]).
Proof.
  unfold Delete_asserting. run_method. rewrite H0, H1. by run_method.
Qed.

(** The assertion in [Delete] is made on a [*BaseFactory]. *)
Lemma assert_BaseFactory_ptr (impl : option hook) :
  assert_WithDeleteTrace GoTypes.BaseFactory_ptr impl = None.
Proof. reflexivity. Qed.

Lemma run_Delete_absent s name :
  mu (fac s) = false →
  lookup_trace (fac s) name = None →
  run (Delete name) s
  = Returned tt
      (after s (traces (fac s)) (ext s)
         [EvLog ("Deleting " +:+ name); EvLock;
          EvLog ("Deleting " +:+ name +:+ ": does not exist"); EvUnlock]).
Proof. apply run_Delete_asserting_absent. Qed.

Lemma run_Delete_present s name v :
  mu (fac s) = false →
  lookup_trace (fac s) name = Some v →
  run (Delete name) s
  = Returned tt
      (after s (delete name <$> traces (fac s)) (ext s)
         [EvLog ("Deleting " +:+ name); EvLock; EvRemove name; EvUnlock]).
Proof. intros. by eapply run_Delete_asserting_plain. Qed.

Lemma run_Initialize s r c :
  run (Initialize r c) s
  = Returned tt
      (set_fac s {| Resolver := r; Client := c; mu := mu (fac s);
                    traces := traces (fac s) |}).
Proof. by destruct s as [[] ? ?]. Qed.

(** Lookups in the states the methods leave behind. *)
Lemma lookup_after s t w e name :
  lookup_trace (fac (after s t w e)) name = t ≫= λ m, m !! name.
Proof. done. Qed.

Lemma mu_after s t w e : mu (fac (after s t w e)) = mu (fac s).
Proof. done. Qed.

Lemma lookup_trace_delete f name k :
  lookup_trace (set_traces f (delete name <$> traces f)) k
  = if decide (name = k) then None else lookup_trace f k.
Proof.
  unfold lookup_trace. destruct f as [? ? ? [m|]]; simpl.
  - rewrite lookup_delete. by case_decide.
  - by case_decide.
Qed.

Lemma lookup_trace_insert f name v k :
  lookup_trace (set_traces f (Some (<[name:=v]> (default ∅ (traces f))))) k
  = if decide (name = k) then Some v else lookup_trace f k.
Proof.
  unfold lookup_trace. destruct f as [? ? ? [m|]]; simpl.
  - rewrite lookup_insert. by case_decide.
  - rewrite lookup_insert. case_decide; [done|]. by rewrite lookup_empty.
Qed.

Lemma lookup_trace_default f k :
  lookup_trace (set_traces f (Some (default ∅ (traces f)))) k = lookup_trace f k.
Proof. unfold lookup_trace. by destruct f as [? ? ? [m|]]. Qed.

Lemma entries_default f :
  entries (set_traces f (Some (default ∅ (traces f)))) = entries f.
Proof.
  unfold entries. destruct f as [? ? ? [m|]]; simpl; [done|].
  apply map_to_list_empty.
Qed.

Lemma new_trace_calls_app (h1 h2 : list (event V)) :
  new_trace_calls (h1 ++ h2) = new_trace_calls h1 + new_trace_calls h2.
Proof. apply count_app. Qed.

(** A gadget that declares [DeleteTrace] satisfies
    [TraceFactoryWithDeleteTrace]. *)
Lemma Gadget_implements_WithDeleteTrace (g : Gadget V W) h :
  gadget_DeleteTrace g = Some h →
  GoTypes.implements (Gadget_methods g) GoTypes.TraceFactoryWithDeleteTrace = true.
Proof. intros Hg. unfold Gadget_methods. rewrite Hg. by vm_compute. Qed.

(** Had [Delete] asserted on the gadget itself, the hook would run on the
    stored value, and before the entry is removed. *)
Lemma Delete_asserting_gadget_calls_hook (g : Gadget V W) h s name v :
  gadget_DeleteTrace g = Some h →
  mu (fac s) = false →
  lookup_trace (fac s) name = Some v →
  run (Delete_asserting (Gadget_methods g) (gadget_DeleteTrace g) name) s
  = Returned tt
      (after s (delete name <$> traces (fac s)) (h name v (ext s))
         [EvLog ("Deleting " +:+ name); EvLock; EvDeleteTrace name v;
          EvRemove name; EvUnlock]).
Proof.
  intros Hg Hmu Hv. eapply run_Delete_asserting_hooked; [done..|].
  unfold assert_WithDeleteTrace.
  by rewrite (Gadget_implements_WithDeleteTrace g h Hg).
Qed.

(** C1. [Delete(n)] on a present name [n] is claimed to invoke the
    [DeleteTrace] hook of a concrete factory that implements
    [TraceFactoryWithDeleteTrace], with the name and the stored value,
    before the entry is removed. The code asserts on the [*BaseFactory]
    receiver instead: for every gadget that embeds [BaseFactory] and
    declares [DeleteTrace], the gadget satisfies the interface, and yet
    [Delete] returns with the entry removed, the callbacks' state
    untouched and no [DeleteTrace] invocation in the history. The second
    half of the claim holds: a following [LookupOrCreate(n, nil)] returns
    nil. *)
Theorem Gadget_Delete_skips_DeleteTrace (g : Gadget V W) h s name v :
  gadget_DeleteTrace g = Some h →
  mu (fac s) = false →
  lookup_trace (fac s) name = Some v →
  GoTypes.implements (Gadget_methods g) GoTypes.TraceFactoryWithDeleteTrace = true
  ∧ ∃ s',
      run (Gadget_Delete g name) s = Returned tt s'
      ∧ ext s' = ext s
      ∧ history s'
        = history s
          ++ [EvLog ("Deleting " +:+ name); EvLock; EvRemove name; EvUnlock]
      ∧ count is_delete_trace (history s') = count is_delete_trace (history s)
      ∧ lookup_trace (fac s') name = None
      ∧ ∃ s'', run (LookupOrCreate name None) s' = Returned None s''.
Proof.
  intros Hg Hmu Hv. split; [by eapply Gadget_implements_WithDeleteTrace|].
  eexists. split; [by eapply run_Delete_present|].
  assert (lookup_trace (fac (after s (delete name <$> traces (fac s)) (ext s)
            [EvLog ("Deleting " +:+ name); EvLock; EvRemove name; EvUnlock]))
            name = None) as Hgone.
  { simpl. rewrite lookup_trace_delete. by case_decide. }
  repeat split; try done.
  - count_events.
  - eexists. by apply run_LookupOrCreate_nil.
Qed.

(** C2. [LookupOrCreate(n, f)], for every name and every (possibly nil)
    [f]: when [n] has an entry, the call returns the stored value, and [f]
    is not invoked (no constructor call enters the history, the callbacks'
    state and the factory are as before); when [n] has no entry and [f] is
    not nil, [f] is invoked exactly once, its result is stored under [n]
    (the other names keep what they had) and returned. *)
Theorem LookupOrCreate_returns_or_creates s name newTrace :
  mu (fac s) = false →
  match lookup_trace (fac s) name with
  | Some v =>
      ∃ s', run (LookupOrCreate name newTrace) s = Returned v s'
            ∧ fac s' = fac s
            ∧ ext s' = ext s
            ∧ history s' = history s ++ [EvLock; EvUnlock]
            ∧ new_trace_calls (history s') = new_trace_calls (history s)
  | None =>
      ∀ new, newTrace = Some new →
        ∃ s', run (LookupOrCreate name newTrace) s = Returned (new (ext s)).1 s'
              ∧ lookup_trace (fac s') name = Some (new (ext s)).1
              ∧ (∀ k, k ≠ name →
                      lookup_trace (fac s') k = lookup_trace (fac s) k)
              ∧ ext s' = (new (ext s)).2
              ∧ history s'
                = history s
                  ++ [EvLock; EvNewTrace (new (ext s)).1;
                      EvStore name (new (ext s)).1; EvUnlock]
              ∧ new_trace_calls (history s') = S (new_trace_calls (history s))
  end.
Proof.
  intros Hmu. destruct (lookup_trace (fac s) name) as [v|] eqn:Hv.
  - eexists. split; [by apply run_LookupOrCreate_found|].
    repeat split; [apply set_traces_id|].
    count_events.
  - intros new ->. eexists. split; [by apply run_LookupOrCreate_create|].
    repeat split.
    + simpl. rewrite lookup_trace_insert. by case_decide.
    + intros k Hk. simpl. rewrite lookup_trace_insert. by case_decide.
    + count_events.
Qed.

(** C3. [Delete(n)] for a name [n] that has no entry returns normally (it
    neither blocks nor panics), only logs, and leaves the trace map, like
    the rest of the factory and the callbacks' state, unchanged. *)
Theorem Delete_absent_is_noop s name :
  mu (fac s) = false →
  lookup_trace (fac s) name = None →
  ∃ s', run (Delete name) s = Returned tt s'
        ∧ traces (fac s') = traces (fac s)
        ∧ fac s' = fac s
        ∧ ext s' = ext s
        ∧ history s'
          = history s
            ++ [EvLog ("Deleting " +:+ name); EvLock;
                EvLog ("Deleting " +:+ name +:+ ": does not exist"); EvUnlock].
Proof.
  intros Hmu Hv. eexists. split; [by apply run_Delete_absent|].
  repeat split. apply set_traces_id.
Qed.

(** C4. [LookupOrCreate(n, nil)] for a name [n] that has no entry returns
    nil and has no side effect: no entry is created, every name looks up
    afterwards as it did before, nothing is constructed, and the resolver,
    the client and the callbacks' state are as before. *)
Theorem LookupOrCreate_nil_absent s name :
  mu (fac s) = false →
  lookup_trace (fac s) name = None →
  ∃ s', run (LookupOrCreate name None) s = Returned None s'
        ∧ (∀ k, lookup_trace (fac s') k = lookup_trace (fac s) k)
        ∧ entries (fac s') = entries (fac s)
        ∧ Resolver (fac s') = Resolver (fac s)
        ∧ Client (fac s') = Client (fac s)
        ∧ mu (fac s') = mu (fac s)
        ∧ ext s' = ext s
        ∧ new_trace_calls (history s') = new_trace_calls (history s).
Proof.
  intros Hmu Hv. eexists. split; [by apply run_LookupOrCreate_nil|].
  repeat split.
  - intros k. apply lookup_trace_default.
  - apply entries_default.
  - count_events.
Qed.

(** C7. [Operations()] of [BaseFactory] returns the empty mapping, in
    every state of the factory, and changes nothing. *)
Theorem Operations_returns_empty s :
  run (Operations (W:=W)) s = Returned ∅ s.
Proof. reflexivity. Qed.

(** C8. On a [BaseFactory] whose trace map is still nil (no
    [LookupOrCreate] has run), [Delete(n)] returns normally for every name
    [n]: it does not panic, and the factory is left as it was, the map
    still nil. *)
Theorem Delete_on_nil_map s name :
  traces (fac s) = None →
  mu (fac s) = false →
  ∃ s', run (Delete name) s = Returned tt s'
        ∧ fac s' = fac s
        ∧ traces (fac s') = None
        ∧ ext s' = ext s.
Proof.
  intros Hnil Hmu. eexists. split.
  - apply run_Delete_absent; [done|]. unfold lookup_trace. by rewrite Hnil.
  - repeat split; [apply set_traces_id | done].
Qed.

(** C10. [Initialize(r, c)] writes the [Resolver] and [Client] fields and
    nothing else: the trace map with all its entries, the mutex, the
    callbacks' state and the history are unchanged, and a second call
    replaces what the first one bound. *)
Theorem Initialize_writes_two_fields s r c :
  ∃ s', run (Initialize r c) s = Returned tt s'
        ∧ Resolver (fac s') = r
        ∧ Client (fac s') = c
        ∧ traces (fac s') = traces (fac s)
        ∧ (∀ k, lookup_trace (fac s') k = lookup_trace (fac s) k)
        ∧ mu (fac s') = mu (fac s)
        ∧ ext s' = ext s
        ∧ history s' = history s
        ∧ ∀ r' c', run (Initialize r' c') s' = run (Initialize r' c') s.
Proof.
  eexists. split; [apply run_Initialize|]. by repeat split.
Qed.

End Sequential.

(** ** Sequences of calls *)

Section Sequences.

Context {V W Res Cli : Type}.

Local Abbreviation state := (state V W Res Cli).
Local Abbreviation call := (call V W Res Cli).

Implicit Types (s : state) (c : call) (cs : list call) (name : string).

(** What one call leaves behind, whatever the call. *)
Lemma run_call_returns c s :
  mu (fac s) = false →
  ∃ s', run_call c s = Returned tt s'
        ∧ mu (fac s') = false
        ∧ (∀ name, accounted s name → accounted s' name)
        ∧ (∀ name v, deletes name c = false →
                     lookup_trace (fac s) name = Some v →
                     lookup_trace (fac s') name = Some v).
Proof.
  intros Hmu. destruct c as [r c|n newTrace|n]; unfold run_call, deletes.
  - rewrite run_Initialize. eexists. split; [done|]. by repeat split.
  - destruct (lookup_trace (fac s) n) as [v|] eqn:Hn;
      [|destruct newTrace as [new|]].
    + rewrite (run_LookupOrCreate_found _ _ _ v) by done.
      eexists. split; [done|]. split; [done|]. split.
      * intros k Hk. unfold accounted in *. simpl.
        rewrite set_traces_id. rewrite !count_app, Hk. count_events.
      * intros k v' _ Hk. simpl. by rewrite set_traces_id.
    + rewrite run_LookupOrCreate_create by done.
      eexists. split; [done|]. split; [done|]. split.
      * intros k Hk. unfold accounted in *. simpl.
        rewrite lookup_trace_insert, !count_app, Hk, !count_cons, !count_nil.
        simpl. case_decide as Hnk.
        -- subst k. rewrite Hn, bool_decide_eq_true_2 by done. lia.
        -- rewrite bool_decide_eq_false_2 by done. lia.
      * intros k v' _ Hk. simpl. rewrite lookup_trace_insert.
        case_decide; [congruence | done].
    + rewrite run_LookupOrCreate_nil by done.
      eexists. split; [done|]. split; [done|]. split.
      * intros k Hk. unfold accounted in *. simpl.
        rewrite lookup_trace_default, !count_app, Hk. count_events.
      * intros k v' _ Hk. simpl. by rewrite lookup_trace_default.
  - destruct (lookup_trace (fac s) n) as [v|] eqn:Hn.
    + rewrite (run_Delete_present _ _ v) by done.
      eexists. split; [done|]. split; [done|]. split.
      * intros k Hk. unfold accounted in *. simpl.
        rewrite lookup_trace_delete, !count_app, Hk, !count_cons, !count_nil.
        simpl. case_decide as Hnk.
        -- subst k. rewrite Hn, bool_decide_eq_true_2 by done. lia.
        -- rewrite bool_decide_eq_false_2 by done. lia.
      * intros k v' Hd Hk. simpl. rewrite lookup_trace_delete.
        apply bool_decide_eq_false in Hd. by case_decide.
    + rewrite run_Delete_absent by done.
      eexists. split; [done|]. split; [done|]. split.
      * intros k Hk. unfold accounted in *. simpl.
        rewrite set_traces_id, !count_app, Hk. count_events.
      * intros k v' _ Hk. simpl. by rewrite set_traces_id.
Qed.

Lemma run_calls_returns cs s :
  mu (fac s) = false →
  ∃ s', run_calls cs s = Returned tt s'
        ∧ mu (fac s') = false
        ∧ (∀ name, accounted s name → accounted s' name)
        ∧ (∀ name v, Forall (λ c, deletes name c = false) cs →
                     lookup_trace (fac s) name = Some v →
                     lookup_trace (fac s') name = Some v).
Proof.
  revert s. induction cs as [|c cs IH]; intros s Hmu; simpl.
  - eexists. by repeat split.
  - destruct (run_call_returns c s Hmu) as (s1 & -> & Hmu1 & Hacc1 & Hkeep1).
    destruct (IH s1 Hmu1) as (s2 & -> & Hmu2 & Hacc2 & Hkeep2).
    eexists. split; [done|]. split; [done|]. split; [by auto|].
    intros name v Hall Hv. apply Forall_cons in Hall as [Hc Hcs]. by auto.
Qed.

Lemma NoDup_entries (f : BaseFactory V Res Cli) : NoDup (entries f).*1.
Proof.
  unfold entries. destruct (traces f) as [m|]; simpl.
  - apply NoDup_fst_map_to_list.
  - constructor.
Qed.

Lemma accounted_zero_state (w : W) name :
  accounted (zero_state w : state) name.
Proof. done. Qed.

(** C6. A [BaseFactory] holds at most one trace entry per name, whatever
    sequence of [Initialize], [LookupOrCreate] and [Delete] calls it went
    through: every such sequence returns, and afterwards, for every name,
    the stores under that name outnumber the removals by exactly one when
    the name has an entry and by none when it has not (no store ever
    lands on a live entry), and the names of the stored entries are
    pairwise distinct. *)
Theorem one_entry_per_name cs s :
  mu (fac s) = false →
  (∀ name, accounted s name) →
  ∃ s', run_calls cs s = Returned tt s'
        ∧ (∀ name,
             accounted s' name
             ∧ count (stores_of name) (history s')
               ≤ count (removes_of name) (history s') + 1)
        ∧ NoDup (entries (fac s')).*1
        ∧ (∀ name v1 v2,
             (name, v1) ∈ entries (fac s') → (name, v2) ∈ entries (fac s') →
             v1 = v2).
Proof.
  intros Hmu Hacc.
  destruct (run_calls_returns cs s Hmu) as (s' & Hrun & _ & Hacc' & _).
  exists s'. split; [done|]. split; [|split].
  - intros name. pose proof (Hacc' name (Hacc name)) as Hn.
    split; [done|]. unfold accounted in Hn. rewrite Hn.
    destruct (lookup_trace (fac s') name); lia.
  - apply NoDup_entries.
  - intros name v1 v2 H1 H2.
    unfold entries in *. destruct (traces (fac s')) as [m|].
    + apply elem_of_map_to_list in H1, H2. congruence.
    + by apply elem_of_nil in H1.
Qed.

(** C9. When the constructor passed to [LookupOrCreate(n, f)] returns nil,
    nil is stored as the entry of [n] all the same. The name is then
    taken: after any further calls other than [Delete(n)], every
    [LookupOrCreate(n, g)] returns nil and does not invoke [g]. [Delete(n)]
    frees the name, and the next [LookupOrCreate(n, g)] constructs again. *)
Theorem nil_result_occupies_name s name (new : ctor V W) cs :
  mu (fac s) = false →
  lookup_trace (fac s) name = None →
  (new (ext s)).1 = None →
  Forall (λ c, deletes name c = false) cs →
  ∃ s1 s2,
    run (LookupOrCreate name (Some new)) s = Returned None s1
    ∧ lookup_trace (fac s1) name = Some None
    ∧ run_calls cs s1 = Returned tt s2
    ∧ (∀ g, ∃ s3,
         run (LookupOrCreate name g) s2 = Returned None s3
         ∧ fac s3 = fac s2
         ∧ ext s3 = ext s2
         ∧ new_trace_calls (history s3) = new_trace_calls (history s2))
    ∧ ∃ s4,
        run (Delete name) s2 = Returned tt s4
        ∧ lookup_trace (fac s4) name = None
        ∧ ∀ g, ∃ s5,
            run (LookupOrCreate name (Some g)) s4 = Returned (g (ext s4)).1 s5
            ∧ new_trace_calls (history s5) = S (new_trace_calls (history s4)).
Proof.
  intros Hmu Hn Hnil Hcs.
  pose proof (run_LookupOrCreate_create s name new Hmu Hn) as Hrun.
  rewrite Hnil in Hrun.
  set (s1 := after s _ _ _) in Hrun.
  assert (lookup_trace (fac s1) name = Some None) as Hn1.
  { subst s1. simpl. rewrite lookup_trace_insert. by case_decide. }
  destruct (run_calls_returns cs s1 Hmu) as (s2 & Hcalls & Hmu2 & _ & Hkeep).
  pose proof (Hkeep name None Hcs Hn1) as Hn2.
  exists s1, s2. split; [done|]. split; [done|]. split; [done|]. split.
  - intros g. eexists. split; [by apply run_LookupOrCreate_found|].
    repeat split; [apply set_traces_id | count_events].
  - eexists. split; [by eapply run_Delete_present|]. split.
    + simpl. rewrite lookup_trace_delete. by case_decide.
    + intros g. eexists. split.
      * apply run_LookupOrCreate_create; [done|].
        simpl. rewrite lookup_trace_delete. by case_decide.
      * count_events.
Qed.

End Sequences.

(** ** Goroutines racing on one name *)

Section Concurrent.

Context {V W Res Cli : Type}.

Local Abbreviation state := (state V W Res Cli).
Local Abbreviation pc := (pc V).
Local Abbreviation iface := (iface V).

Variables (name : string) (new : ctor V W) (s0 : state).

Implicit Types (s : state) (l : pc) (ls : list pc) (i j : nat).

(** The phases read the map, the callbacks' state and the number of
    constructions, nothing else. *)
Lemma phases_same_view s s' :
  same_view s s' →
  (fresh name s0 s → fresh name s0 s')
  ∧ (built name new s0 s → built name new s0 s')
  ∧ (stored name new s0 s → stored name new s0 s').
Proof.
  intros (Ht & He & Hc). unfold fresh, built, stored, lookup_trace.
  by rewrite Ht, He, Hc.
Qed.

Local Abbreviation code := (code (Res:=Res) (Cli:=Cli) name new).
Local Abbreviation pc_step := (pc_step (Res:=Res) (Cli:=Cli) name new).
Local Abbreviation pc_ok := (pc_ok name new s0).
Local Abbreviation race_inv := (race_inv name new s0).
Local Abbreviation fresh := (fresh name s0).
Local Abbreviation built := (built name new s0).
Local Abbreviation stored := (stored name new s0).
Local Abbreviation at_places := (at_places name new).

(** *** Programs and places *)

Lemma thread_step_code l s :
  thread_step (code l) s = prod_map code id <$> pc_step l s.
Proof.
  destruct l; simpl; try done.
  - by destruct (mu (fac s)).
  - by destruct (bool_decide (traces (fac s) = None)).
  - by destruct (lookup_trace (fac s) name).
  - by destruct (traces (fac s)).
  - by destruct (mu (fac s)).
Qed.

Lemma code_Ret l v : code l = Ret v → l = Done v.
Proof. destruct l; simpl; try discriminate. by intros [= ->]. Qed.

Lemma in_critical_code l : in_critical (code l) = negb (idle l).
Proof. by destruct l. Qed.

Lemma pc_step_weight l s l' s' :
  pc_step l s = Some (l', s') → weight l' < weight l.
Proof.
  destruct l; simpl; intros Hstep; repeat case_match; simplify_eq/=; lia.
Qed.

(** A step of the goroutines is a step of one place, and conversely. *)
Lemma step_at_places s ls c :
  step (at_places s ls) c →
  ∃ i l l' s', ls !! i = Some l ∧ pc_step l s = Some (l', s')
               ∧ c = at_places s' (<[i:=l']> ls).
Proof.
  inversion 1 as [c0 i p p' s' Hi Hp]; simplify_eq/=.
  apply list_lookup_fmap_Some in Hi as (l & -> & Hl).
  rewrite thread_step_code in Hp.
  destruct (pc_step l s) as [[l' s'']|] eqn:Hl'; [|done].
  simpl in Hp. injection Hp as <- <-.
  exists i, l, l', s''. split; [done|]. split; [done|].
  unfold at_places. by rewrite list_fmap_insert.
Qed.

Lemma at_places_step s ls i l l' s' :
  ls !! i = Some l → pc_step l s = Some (l', s') →
  step (at_places s ls) (at_places s' (<[i:=l']> ls)).
Proof.
  intros Hl Hstep. unfold at_places. rewrite list_fmap_insert.
  apply (step_thread (at_places s ls) i (code l) (code l') s').
  - apply list_lookup_fmap_Some. eauto.
  - cbn [shared at_places]. by rewrite thread_step_code, Hstep.
Qed.

Lemma step_at_step {A} i (c c' : config V W Res Cli A) :
  step_at i c = Some c' → step c c'.
Proof.
  unfold step_at. intros Hc.
  destruct (threads c !! i) as [p|] eqn:Hp; [|done]. simpl in Hc.
  destruct (thread_step p (shared c)) as [[p' s']|] eqn:Hs; [|done].
  simpl in Hc. injection Hc as <-. by eapply step_thread.
Qed.

Lemma run_schedule_nsteps {A} sched (c c' : config V W Res Cli A) :
  run_schedule sched c = Some c' → nsteps step (length sched) c c'.
Proof.
  revert c. induction sched as [|i sched IH]; intros c; simpl.
  - intros [= ->]. constructor.
  - destruct (step_at i c) as [c1|] eqn:Hc1; [|done]. simpl. intros Hrun.
    eapply nsteps_l; [by eapply step_at_step | by apply IH].
Qed.

(** *** The phases exclude each other *)

Lemma fresh_not_stored s : fresh s → stored s → False.
Proof. intros (? & _) (? & _). congruence. Qed.

Lemma built_not_stored s : built s → stored s → False.
Proof. intros (? & _) (? & _). congruence. Qed.

Lemma stored_is_Some s : stored s → is_Some (traces (fac s)).
Proof.
  intros (Hn & _). unfold lookup_trace in Hn.
  destruct (traces (fac s)); [by eexists | done].
Qed.

Lemma pc_ok_same_view s s' l : same_view s s' → pc_ok s l → pc_ok s' l.
Proof.
  intros Hv. destruct (phases_same_view s s' Hv) as (Hf & Hb & Hs).
  destruct Hv as (Ht & _). destruct l; simpl; rewrite ?Ht; tauto.
Qed.

Lemma fresh_or_stored_same_view s s' :
  same_view s s' → fresh s ∨ stored s → fresh s' ∨ stored s'.
Proof. intros Hv. apply (pc_ok_same_view s s' AtNilCheck Hv). Qed.

(** A goroutine outside the critical section relies on nothing a goroutine
    inside can change. *)
Lemma pc_ok_idle s s' l :
  idle l = true → (stored s → stored s') → pc_ok s l → pc_ok s' l.
Proof. destruct l; simpl; try done. intros _ Hs [-> ?]. auto. Qed.

(** *** Who holds the mutex *)

Lemma race_inv_holder s ls i l :
  race_inv s ls → ls !! i = Some l → idle l = false →
  mu (fac s) = true
  ∧ ∀ j l', j ≠ i → ls !! j = Some l' → idle l' = true.
Proof.
  intros [_ Hmu] Hl Hbusy. destruct (mu (fac s)).
  - destruct Hmu as (i0 & l0 & Hl0 & _ & Hothers). split; [done|].
    destruct (decide (i = i0)) as [->|Hne]; [done|].
    specialize (Hothers i l Hne Hl). congruence.
  - destruct Hmu as [Hall _]. specialize (Hall i l Hl). congruence.
Qed.

Lemma race_inv_keep_holder s' ls i l l' :
  mu (fac s') = true →
  ls !! i = Some l →
  (∀ j l'', j ≠ i → ls !! j = Some l'' → idle l'' = true ∧ pc_ok s' l'') →
  idle l' = false → pc_ok s' l' →
  race_inv s' (<[i:=l']> ls).
Proof.
  intros Hmu Hl Hothers Hbusy Hok. apply lookup_lt_Some in Hl as Hlt.
  split.
  - intros j l'' Hj. destruct (decide (j = i)) as [->|Hne].
    + rewrite list_lookup_insert_eq in Hj by done. by simplify_eq.
    + rewrite list_lookup_insert_ne in Hj by done. by apply (Hothers j).
  - rewrite Hmu. exists i, l'. split; [by rewrite list_lookup_insert_eq|].
    split; [done|]. intros j l'' Hne Hj.
    rewrite list_lookup_insert_ne in Hj by done. by apply (Hothers j).
Qed.

Lemma race_inv_release s' ls i l l' :
  mu (fac s') = false →
  ls !! i = Some l →
  (∀ j l'', j ≠ i → ls !! j = Some l'' → idle l'' = true ∧ pc_ok s' l'') →
  idle l' = true → pc_ok s' l' → fresh s' ∨ stored s' →
  race_inv s' (<[i:=l']> ls).
Proof.
  intros Hmu Hl Hothers Hidle Hok Hphase. apply lookup_lt_Some in Hl as Hlt.
  assert (∀ j l'', <[i:=l']> ls !! j = Some l'' → idle l'' = true ∧ pc_ok s' l'')
    as Hall.
  { intros j l'' Hj. destruct (decide (j = i)) as [->|Hne].
    - rewrite list_lookup_insert_eq in Hj by done. by simplify_eq.
    - rewrite list_lookup_insert_ne in Hj by done. by apply (Hothers j). }
  split.
  - intros j l'' Hj. by apply (Hall j).
  - rewrite Hmu. split; [|done]. intros j l'' Hj. by apply (Hall j).
Qed.

(** *** One action keeps the invariant *)

Lemma race_inv_step s ls i l l' s' :
  race_inv s ls → ls !! i = Some l → pc_step l s = Some (l', s') →
  race_inv s' (<[i:=l']> ls).
Proof.
  intros Hinv Hl Hstep.
  pose proof Hinv as [Hok Hmu]. pose proof (Hok i l Hl) as Hokl.
  destruct l as [| | | | |trace|trace|trace]; simpl in Hstep, Hokl.
  - (* Lock *)
    destruct (mu (fac s)) eqn:Hm; [done|]. injection Hstep as <- <-.
    destruct Hmu as [Hall Hphase].
    assert (same_view s (with_fac s (set_mu (fac s) true) [EvLock])) as Hview.
    { repeat split. count_events. }
    apply (race_inv_keep_holder _ _ _ AtLock); try done.
    + intros j l'' _ Hj. split; [by eapply Hall|].
      eapply pc_ok_same_view; [done|]. by eapply Hok.
    + by eapply fresh_or_stored_same_view.
  - (* traces == nil ? *)
    injection Hstep as <- <-.
    destruct (race_inv_holder s ls i AtNilCheck Hinv Hl eq_refl) as [Hm Hothers].
    apply (race_inv_keep_holder _ _ _ AtNilCheck); try done.
    + intros j l'' Hne Hj. split; [by eapply Hothers | by eapply Hok].
    + by case_bool_decide.
    + case_bool_decide as Hnil; simpl.
      * split; [|done]. destruct Hokl as [?|Hst]; [done|].
        apply stored_is_Some in Hst as [m Hst]. congruence.
      * split; [done|]. by destruct (traces (fac s)).
  - (* make *)
    injection Hstep as <- <-. destruct Hokl as [Hfresh Hnil].
    destruct (race_inv_holder s ls i AtMake Hinv Hl eq_refl) as [Hm Hothers].
    apply (race_inv_keep_holder _ _ _ AtMake); try done.
    + intros j l'' Hne Hj. split; [by eapply Hothers|].
      eapply pc_ok_idle; [by eapply Hothers| |by eapply Hok].
      intros Hst. by destruct (fresh_not_stored s).
    + destruct Hfresh as (_ & He & Hc). by repeat split.
  - (* traces[name] *)
    injection Hstep as <- <-. destruct Hokl as [Hphase Hsome].
    destruct (race_inv_holder s ls i AtGet Hinv Hl eq_refl) as [Hm Hothers].
    apply (race_inv_keep_holder _ _ _ AtGet); try done.
    + intros j l'' Hne Hj. split; [by eapply Hothers | by eapply Hok].
    + by destruct (lookup_trace (fac s) name).
    + destruct (lookup_trace (fac s) name) as [trace|] eqn:Hn; simpl.
      * destruct Hphase as [(Hn' & _)|Hst]; [congruence|].
        split; [|done]. destruct Hst as (Hn' & _). congruence.
      * split; [|done]. destruct Hphase as [?|(Hn' & _)]; [done | congruence].
  - (* newTrace() *)
    injection Hstep as <- <-. destruct Hokl as [Hfresh Hsome].
    destruct (race_inv_holder s ls i AtCall Hinv Hl eq_refl) as [Hm Hothers].
    apply (race_inv_keep_holder _ _ _ AtCall); try done.
    + intros j l'' Hne Hj. split; [by eapply Hothers|].
      eapply pc_ok_idle; [by eapply Hothers| |by eapply Hok].
      intros Hst. by destruct (fresh_not_stored s).
    + destruct Hfresh as (Hn & He & Hc). simpl. rewrite He.
      split; [done|]. repeat split; try done. simpl. rewrite <- Hc. count_events.
  - (* traces[name] = trace *)
    destruct Hokl as [-> Hbuilt].
    destruct (traces (fac s)) as [m|] eqn:Hmap; [|done]. injection Hstep as <- <-.
    destruct (race_inv_holder s ls i _ Hinv Hl eq_refl) as [Hm Hothers].
    eapply race_inv_keep_holder; try done.
    + intros j l'' Hne Hj. split; [by eapply Hothers|].
      eapply pc_ok_idle; [by eapply Hothers| |by eapply Hok].
      intros Hst. by destruct (built_not_stored s).
    + destruct Hbuilt as (Hn & _ & He & Hc). simpl. split; [done|].
      repeat split; try done.
      * unfold lookup_trace. simpl. by rewrite lookup_insert_eq.
      * simpl. rewrite <- Hc. count_events.
  - (* Unlock *)
    destruct (mu (fac s)) eqn:Hm; [|done]. injection Hstep as <- <-.
    destruct (race_inv_holder s ls i _ Hinv Hl eq_refl) as [_ Hothers].
    assert (same_view s (with_fac s (set_mu (fac s) false) [EvUnlock])) as Hview.
    { repeat split. count_events. }
    pose proof (pc_ok_same_view _ _ (Done trace) Hview Hokl) as Hdone.
    eapply race_inv_release; try done.
    + intros j l'' Hne Hj. split; [by eapply Hothers|].
      eapply pc_ok_same_view; [done|]. by eapply Hok.
    + right. by destruct Hdone.
  - done.
Qed.

(** *** No deadlock, and an end *)

Lemma race_inv_progress s ls i l :
  race_inv s ls → ls !! i = Some l → weight l ≠ 0 →
  ∃ i' l0 l' s', ls !! i' = Some l0 ∧ pc_step l0 s = Some (l', s').
Proof.
  intros [Hok Hmu] Hl Hw. destruct (mu (fac s)) eqn:Hm.
  - destruct Hmu as (i0 & l0 & Hl0 & Hbusy & _).
    pose proof (Hok i0 l0 Hl0) as Hok0.
    exists i0, l0. destruct l0; simpl in *; try done; rewrite ?Hm; eauto.
    destruct Hok0 as (_ & _ & [m ->] & _). eauto.
  - destruct Hmu as [Hall _]. pose proof (Hall i l Hl) as Hidle.
    exists i, l. destruct l; simpl in *; try done. rewrite Hm. eauto.
Qed.

Lemma total_weight_insert ls i l l' :
  ls !! i = Some l →
  total_weight (<[i:=l']> ls) + weight l = total_weight ls + weight l'.
Proof.
  unfold total_weight. revert i. induction ls as [|l0 ls IH]; intros [|i] Hl;
    simplify_eq/=; [lia|].
  specialize (IH i Hl). lia.
Qed.

Lemma total_weight_pos ls :
  total_weight ls ≠ 0 → ∃ i l, ls !! i = Some l ∧ weight l ≠ 0.
Proof.
  unfold total_weight. induction ls as [|l0 ls IH]; csimpl; [done|]. intros Hw.
  destruct (decide (weight l0 = 0)) as [Hz|Hnz].
  - destruct IH as (i & l & Hl & Hl0); [lia|]. by exists (S i), l.
  - by exists 0, l0.
Qed.

Lemma total_weight_zero ls i l :
  total_weight ls = 0 → ls !! i = Some l → ∃ v, l = Done v.
Proof.
  unfold total_weight. revert i. induction ls as [|l0 ls IH]; intros [|i] Hw Hl;
    simplify_eq/=.
  - destruct l; simpl in *; try lia. eauto.
  - apply (IH i); [lia | done].
Qed.

Lemma total_weight_replicate N : total_weight (replicate N (AtLock : pc)) = 7 * N.
Proof. unfold total_weight. induction N as [|N IH]; csimpl; lia. Qed.

(** Every run of [k] actions leaves the invariant in place and has used up
    [k] of the weight. *)
Lemma race_inv_nsteps k (c1 c : config V W Res Cli iface) :
  nsteps step k c1 c →
  ∀ s ls, c1 = at_places s ls → race_inv s ls →
  ∃ s' ls', c = at_places s' ls' ∧ race_inv s' ls'
            ∧ length ls' = length ls
            ∧ k + total_weight ls' ≤ total_weight ls.
Proof.
  induction 1 as [c|k c1 c2 c Hstep _ IH]; intros s ls -> Hinv.
  - exists s, ls. split; [done|]. split; [done|]. split; [done|]. lia.
  - apply step_at_places in Hstep as (i & l & l' & s1 & Hl & Hpc & ->).
    pose proof (race_inv_step _ _ _ _ _ _ Hinv Hl Hpc) as Hinv1.
    destruct (IH _ _ eq_refl Hinv1) as (s' & ls' & -> & Hinv' & Hlen & Hw).
    exists s', ls'. split; [done|]. split; [done|].
    rewrite length_insert in Hlen. split; [done|].
    pose proof (total_weight_insert ls i l l' Hl).
    pose proof (pc_step_weight _ _ _ _ Hpc). lia.
Qed.

(** From wherever the race stands, all goroutines can be run to their
    return. *)
Lemma race_inv_finish s ls :
  race_inv s ls →
  ∃ s' ls', rtc step (at_places s ls) (at_places s' ls')
            ∧ race_inv s' ls' ∧ length ls' = length ls
            ∧ total_weight ls' = 0.
Proof.
  remember (total_weight ls) as n eqn:Hn. revert s ls Hn.
  induction n as [n IH] using lt_wf_ind. intros s ls -> Hinv.
  destruct (decide (total_weight ls = 0)) as [Hz|Hnz].
  - exists s, ls. split; [done|]. by split.
  - destruct (total_weight_pos ls Hnz) as (i & l & Hl & Hw).
    destruct (race_inv_progress s ls i l Hinv Hl Hw) as (i' & l0 & l' & s1 & Hl0 & Hpc).
    pose proof (race_inv_step _ _ _ _ _ _ Hinv Hl0 Hpc) as Hinv1.
    pose proof (total_weight_insert ls i' l0 l' Hl0).
    pose proof (pc_step_weight _ _ _ _ Hpc).
    destruct (IH (total_weight (<[i':=l']> ls)) ltac:(lia) s1 _ eq_refl Hinv1)
      as (s' & ls' & Hrun & Hinv' & Hlen & Hw').
    exists s', ls'. split; [|by rewrite length_insert in Hlen].
    eapply rtc_l; [|done]. by eapply at_places_step.
Qed.

(** *** What the invariant gives *)

Lemma race_inv_calls s ls :
  race_inv s ls →
  new_trace_calls (history s) ≤ S (new_trace_calls (history s0)).
Proof.
  assert (∀ s, fresh s ∨ stored s →
               new_trace_calls (history s) ≤ S (new_trace_calls (history s0)))
    as Hphase.
  { intros s1 [(_ & _ & ->)|(_ & _ & ->)]; lia. }
  intros [Hok Hmu]. destruct (mu (fac s)).
  - destruct Hmu as (i & l & Hl & Hbusy & _). specialize (Hok i l Hl).
    destruct l as [| | | | |trace|trace|trace]; simpl in Hok, Hbusy; try done.
    + by apply Hphase.
    + destruct Hok as [Hf _]. apply Hphase. by left.
    + destruct Hok as [Hf _]. by apply Hphase.
    + destruct Hok as [Hf _]. apply Hphase. by left.
    + destruct Hok as (_ & _ & _ & _ & ->). lia.
    + destruct Hok as [_ Hst]. apply Hphase. by right.
  - destruct Hmu as [_ ?]. auto.
Qed.

Lemma race_inv_exclusive s ls i j l l' :
  race_inv s ls → ls !! i = Some l → ls !! j = Some l' →
  idle l = false → idle l' = false → i = j.
Proof.
  intros Hinv Hl Hl' Hbusy Hbusy'.
  destruct (race_inv_holder s ls i l Hinv Hl Hbusy) as [_ Hothers].
  destruct (decide (i = j)) as [|Hne]; [done|].
  specialize (Hothers j l' (not_eq_sym Hne) Hl'). congruence.
Qed.

Lemma race_inv_initial N :
  mu (fac s0) = false → lookup_trace (fac s0) name = None →
  race_inv s0 (replicate N AtLock).
Proof.
  intros Hm Hn. split.
  - intros j l [-> _]%lookup_replicate. done.
  - rewrite Hm. split; [|by left].
    intros j l [-> _]%lookup_replicate. done.
Qed.

Lemma race_inv_returned s ls i v :
  race_inv s ls → threads (at_places s ls) !! i = Some (Ret v) →
  v = (new (ext s0)).1 ∧ stored s.
Proof.
  intros [Hok _] Hi. apply list_lookup_fmap_Some in Hi as (l & Hc & Hl).
  symmetry in Hc. apply code_Ret in Hc as ->. apply (Hok i _ Hl).
Qed.

Lemma race_inv_all_returned s ls :
  race_inv s ls → total_weight ls = 0 →
  threads (at_places s ls) = replicate (length ls) (Ret (new (ext s0)).1).
Proof.
  intros [Hok _] Hw. symmetry. apply replicate_as_Forall. split.
  - simpl. by rewrite length_fmap.
  - apply Forall_lookup. intros i p Hi.
    apply list_lookup_fmap_Some in Hi as (l & -> & Hl).
    destruct (total_weight_zero ls i l Hw Hl) as [v ->].
    by destruct (Hok i _ Hl) as [-> _].
Qed.

(** C5. [N] goroutines call [LookupOrCreate(n, f)], [f] not nil, for a name
    [n] that has no entry. However their actions interleave:
    - the run is finite (at most [7 * N] actions) and never stuck: unless
      every goroutine has returned, some goroutine can act;
    - at most one goroutine is between [Lock] and [Unlock] at any time;
    - [f] is invoked at most once, and exactly once as soon as some call
      has returned;
    - every call that has returned has returned the result of that one
      invocation, which is the entry stored under [n];
    - the goroutines can all be run to their return, and then [f] has been
      invoked exactly once and all [N] calls have returned its result. *)
Theorem LookupOrCreate_concurrent_constructs_once N k
    (c : config V W Res Cli iface) :
  0 < N →
  mu (fac s0) = false →
  lookup_trace (fac s0) name = None →
  nsteps step k
    {| shared := s0; threads := replicate N (LookupOrCreate name (Some new)) |} c →
  k ≤ 7 * N
  ∧ length (threads c) = N
  ∧ ((∀ i p, threads c !! i = Some p → ∃ v, p = Ret v) ∨ ∃ c', step c c')
  ∧ (∀ i j p q, threads c !! i = Some p → threads c !! j = Some q →
                in_critical p = true → in_critical q = true → i = j)
  ∧ new_trace_calls (history (shared c)) ≤ S (new_trace_calls (history s0))
  ∧ (∀ i v, threads c !! i = Some (Ret v) →
            v = (new (ext s0)).1
            ∧ lookup_trace (fac (shared c)) name = Some v
            ∧ new_trace_calls (history (shared c))
              = S (new_trace_calls (history s0)))
  ∧ ∃ c', rtc step c c'
          ∧ threads c' = replicate N (Ret (new (ext s0)).1)
          ∧ lookup_trace (fac (shared c')) name = Some (new (ext s0)).1
          ∧ new_trace_calls (history (shared c'))
            = S (new_trace_calls (history s0)).
Proof.
  intros HN Hm Hn Hrun.
  assert ({| shared := s0;
             threads := replicate N (LookupOrCreate name (Some new)) |}
          = at_places s0 (replicate N AtLock)) as Hinit.
  { unfold at_places. by rewrite fmap_replicate. }
  destruct (race_inv_nsteps k _ c Hrun s0 _ Hinit (race_inv_initial N Hm Hn))
    as (s & ls & -> & Hinv & Hlen & Hk).
  rewrite length_replicate in Hlen. rewrite total_weight_replicate in Hk.
  split; [lia|]. split; [by rewrite <- Hlen; simpl; rewrite length_fmap|].
  split; [|split; [|split; [|split]]].
  - destruct (decide (total_weight ls = 0)) as [Hz|Hnz].
    + left. intros i p Hi. apply list_lookup_fmap_Some in Hi as (l & -> & Hl).
      destruct (total_weight_zero ls i l Hz Hl) as [v ->]. by exists v.
    + right. destruct (total_weight_pos ls Hnz) as (i & l & Hl & Hw).
      destruct (race_inv_progress s ls i l Hinv Hl Hw)
        as (i' & l0 & l' & s1 & Hl0 & Hpc).
      eexists. by eapply at_places_step.
  - intros i j p q Hi Hj Hp Hq.
    apply list_lookup_fmap_Some in Hi as (l & -> & Hl).
    apply list_lookup_fmap_Some in Hj as (l' & -> & Hl').
    rewrite in_critical_code in Hp, Hq.
    apply negb_true_iff in Hp, Hq. by eapply race_inv_exclusive.
  - by eapply race_inv_calls.
  - intros i v Hi.
    destruct (race_inv_returned s ls i v Hinv Hi) as [-> (Hst & _ & Hc)].
    by repeat split.
  - destruct (race_inv_finish s ls Hinv) as (s' & ls' & Hfin & Hinv' & Hlen' & Hz).
    exists (at_places s' ls'). split; [done|].
    pose proof (race_inv_all_returned s' ls' Hinv' Hz) as Hall.
    rewrite Hlen', Hlen in Hall. split; [done|].
    assert (threads (at_places s' ls') !! 0 = Some (Ret (new (ext s0)).1)) as H0.
    { rewrite Hall. apply lookup_replicate. split; [done | lia]. }
    by destruct (race_inv_returned s' ls' 0 _ Hinv' H0) as [_ (? & _ & ?)].
Qed.

End Concurrent.

(** ** The theorems at sample inputs *)

Lemma Gadget_Delete_skips_DeleteTrace_witness :
  gadget_DeleteTrace probe_gadget = Some teardown
  ∧ lookup_trace (fac one_trace) "t1" = Some (Some "Foo")
  ∧ ∃ s', run (Gadget_Delete probe_gadget "t1") one_trace = Returned () s'
          ∧ ext s' = 1
          ∧ count is_delete_trace (history s') = 0
          ∧ lookup_trace (fac s') "t1" = None.
Proof.
  split; [reflexivity|]. split; [vm_compute; reflexivity|].
  destruct (Gadget_Delete_skips_DeleteTrace probe_gadget teardown one_trace "t1"
              (Some "Foo") eq_refl eq_refl ltac:(vm_compute; reflexivity))
    as (_ & s' & Hrun & Hext & _ & Hcount & Hgone & _).
  exists s'. split; [exact Hrun|]. split; [exact Hext|].
  split; [exact Hcount | exact Hgone].
Defined.

Lemma LookupOrCreate_returns_or_creates_witness :
  (∃ s', run (LookupOrCreate "t1" (Some makeBar)) one_trace
         = Returned (Some "Foo") s'
         ∧ ext s' = 1)
  ∧ (∃ s', run (LookupOrCreate "t2" (Some makeBar)) one_trace
           = Returned (Some "Bar") s'
           ∧ lookup_trace (fac s') "t2" = Some (Some "Bar")
           ∧ ext s' = 2).
Proof.
  split.
  - pose proof (LookupOrCreate_returns_or_creates one_trace "t1" (Some makeBar)
                  eq_refl) as H.
    vm_compute lookup_trace in H.
    destruct H as (s' & Hrun & _ & Hext & _).
    exists s'. split; [exact Hrun | exact Hext].
  - pose proof (LookupOrCreate_returns_or_creates one_trace "t2" (Some makeBar)
                  eq_refl) as H.
    vm_compute lookup_trace in H.
    destruct (H makeBar eq_refl) as (s' & Hrun & Hn & _ & Hext & _).
    exists s'. split; [exact Hrun|]. split; [exact Hn | exact Hext].
Defined.

Lemma Delete_absent_is_noop_witness :
  lookup_trace (fac one_trace) "t2" = None
  ∧ ∃ s', run (Delete "t2") one_trace = Returned () s'
          ∧ traces (fac s') = traces (fac one_trace).
Proof.
  split; [vm_compute; reflexivity|].
  destruct (Delete_absent_is_noop one_trace "t2" eq_refl
              ltac:(vm_compute; reflexivity)) as (s' & Hrun & Ht & _).
  exists s'. split; [exact Hrun | exact Ht].
Defined.

Lemma LookupOrCreate_nil_absent_witness :
  lookup_trace (fac untouched) "t1" = None
  ∧ ∃ s', run (LookupOrCreate "t1" None) untouched = Returned None s'
          ∧ entries (fac s') = []
          ∧ ext s' = 0.
Proof.
  split; [reflexivity|].
  destruct (LookupOrCreate_nil_absent untouched "t1" eq_refl eq_refl)
    as (s' & Hrun & _ & Hent & _ & _ & _ & Hext & _).
  exists s'. split; [exact Hrun|]. split; [exact Hent | exact Hext].
Defined.

Lemma Delete_on_nil_map_witness :
  traces (fac untouched) = None
  ∧ ∃ s', run (Delete "t1") untouched = Returned () s'
          ∧ fac s' = zero_BaseFactory.
Proof.
  split; [reflexivity|].
  destruct (Delete_on_nil_map untouched "t1" eq_refl eq_refl)
    as (s' & Hrun & Hfac & _).
  exists s'. split; [exact Hrun | exact Hfac].
Defined.

Lemma one_entry_per_name_witness :
  ∃ s', run_calls [CallLookupOrCreate "t1" (Some makeFoo);
                   CallLookupOrCreate "t1" (Some makeBar);
                   CallInitialize (Some ()) (Some ());
                   CallDelete "t1";
                   CallLookupOrCreate "t1" (Some makeBar)] untouched
        = Returned () s'
        ∧ count (stores_of "t1") (history s')
          ≤ count (removes_of "t1") (history s') + 1
        ∧ NoDup (entries (fac s')).*1.
Proof.
  destruct (one_entry_per_name
              [CallLookupOrCreate "t1" (Some makeFoo);
               CallLookupOrCreate "t1" (Some makeBar);
               CallInitialize (Some ()) (Some ());
               CallDelete "t1";
               CallLookupOrCreate "t1" (Some makeBar)] untouched eq_refl
              (λ name, eq_refl)) as (s' & Hrun & Hacc & Hnd & _).
  exists s'. split; [exact Hrun|]. split; [exact (proj2 (Hacc "t1")) | exact Hnd].
Defined.

Lemma nil_result_occupies_name_witness :
  (makeNil (ext untouched)).1 = None
  ∧ ∃ s1 s2,
      run (LookupOrCreate "t1" (Some makeNil)) untouched = Returned None s1
      ∧ run_calls [CallLookupOrCreate "t2" (Some makeFoo); CallDelete "t2"] s1
        = Returned () s2
      ∧ ∃ s3, run (LookupOrCreate "t1" (Some makeFoo)) s2 = Returned None s3
              ∧ ext s3 = ext s2.
Proof.
  split; [reflexivity|].
  destruct (nil_result_occupies_name untouched "t1" makeNil
              [CallLookupOrCreate "t2" (Some makeFoo); CallDelete "t2"]
              eq_refl eq_refl eq_refl
              ltac:(repeat constructor; vm_compute; reflexivity))
    as (s1 & s2 & Hrun1 & _ & Hrun2 & Hnil & _).
  exists s1, s2. split; [exact Hrun1|]. split; [exact Hrun2|].
  destruct (Hnil (Some makeFoo)) as (s3 & Hrun3 & _ & Hext & _).
  exists s3. split; [exact Hrun3 | exact Hext].
Defined.

Lemma LookupOrCreate_concurrent_constructs_once_witness :
  run_schedule second_first two_callers = Some two_callers_done
  ∧ length second_first ≤ 7 * 2
  ∧ new_trace_calls (history (shared two_callers_done)) ≤ 1
  ∧ ∀ i v, threads two_callers_done !! i = Some (Ret v) →
           v = Some "first"
           ∧ lookup_trace (fac (shared two_callers_done)) "t1" = Some v.
Proof.
  assert (run_schedule second_first two_callers = Some two_callers_done) as Hrun.
  { vm_compute. reflexivity. }
  split; [exact Hrun|].
  destruct (LookupOrCreate_concurrent_constructs_once "t1" makeNth untouched
              2 (length second_first) two_callers_done ltac:(lia) eq_refl eq_refl
              (run_schedule_nsteps second_first two_callers two_callers_done Hrun))
    as (Hk & _ & _ & _ & Hcalls & Hret & _).
  split; [exact Hk|]. split; [exact Hcalls|].
  intros i v Hi. destruct (Hret i v Hi) as (Hv & Hn & _).
  split; [exact Hv | exact Hn].
Defined.

(** ** The scenarios of the specification, run *)

Example scenario_create_then_lookup :
  ∃ s1 s2,
    run (LookupOrCreate "t1" (Some makeFoo)) untouched = Returned (Some "Foo") s1
    ∧ run (LookupOrCreate "t1" (Some makeBar)) s1 = Returned (Some "Foo") s2
    ∧ ext s2 = 1
    ∧ new_trace_calls (history s2) = 1.
Proof. do 2 eexists. repeat split; vm_compute; reflexivity. Qed.

Example scenario_delete_unknown :
  ∃ s', run (Delete "nope") untouched = Returned () s' ∧ fac s' = fac untouched.
Proof. eexists. split; vm_compute; reflexivity. Qed.

(** ** The life of an entry *)

Section Lifecycle.

Context {V W Res Cli : Type}.

Local Abbreviation state := (state V W Res Cli).
Local Abbreviation call := (call V W Res Cli).
Local Abbreviation BaseFactory := (BaseFactory V Res Cli).

Implicit Types (s : state) (f : BaseFactory) (c : call) (cs : list call)
  (name k : string).

Lemma length_entries_insert f name v :
  lookup_trace f name = None →
  length (entries (set_traces f (Some (<[name:=v]> (default ∅ (traces f))))))
  = S (length (entries f)).
Proof.
  unfold lookup_trace, entries. destruct f as [? ? ? [m|]]; simpl; intros Hn.
  - rewrite !length_map_to_list. by apply map_size_insert_None.
  - rewrite length_map_to_list, map_size_insert_None by apply lookup_empty.
    by rewrite map_size_empty.
Qed.

Lemma length_entries_delete f name v :
  lookup_trace f name = Some v →
  S (length (entries (set_traces f (delete name <$> traces f))))
  = length (entries f).
Proof.
  unfold lookup_trace, entries. destruct f as [? ? ? [m|]]; simpl; intros Hn;
    [|done].
  rewrite !length_map_to_list, map_size_delete_Some by eauto.
  assert (size m ≠ 0); [|lia].
  intros Hz. apply map_size_empty_inv in Hz. subst m.
  by rewrite lookup_empty in Hn.
Qed.

(** X1. [Delete(n)] on a name that has an entry returns with the mutex
    released, removes that entry and no other, and leaves the resolver, the
    client and the callbacks' state as they were. *)
Theorem Delete_removes_one_entry s name v :
  mu (fac s) = false →
  lookup_trace (fac s) name = Some v →
  ∃ s', run (Delete name) s = Returned () s'
        ∧ lookup_trace (fac s') name = None
        ∧ (∀ k, k ≠ name → lookup_trace (fac s') k = lookup_trace (fac s) k)
        ∧ S (length (entries (fac s'))) = length (entries (fac s))
        ∧ Resolver (fac s') = Resolver (fac s)
        ∧ Client (fac s') = Client (fac s)
        ∧ mu (fac s') = false
        ∧ ext s' = ext s
        ∧ history s'
          = history s
            ++ [EvLog ("Deleting " +:+ name); EvLock; EvRemove name; EvUnlock].
Proof.
  intros Hmu Hn. eexists. split; [by eapply run_Delete_present|].
  split; [|split; [|split]].
  - simpl. rewrite lookup_trace_delete. by case_decide.
  - intros k Hk. simpl. rewrite lookup_trace_delete. by case_decide.
  - simpl. by eapply length_entries_delete.
  - by repeat split.
Qed.

(** X2. [Delete] is idempotent: whatever the state, a second [Delete(n)]
    right after the first returns too, only logs, and leaves the factory
    and the callbacks' state as the first left them. *)
Theorem Delete_twice s name :
  mu (fac s) = false →
  ∃ s1 s2,
    run (Delete name) s = Returned () s1
    ∧ run (Delete name) s1 = Returned () s2
    ∧ fac s2 = fac s1
    ∧ ext s2 = ext s1
    ∧ history s2
      = history s1
        ++ [EvLog ("Deleting " +:+ name); EvLock;
            EvLog ("Deleting " +:+ name +:+ ": does not exist"); EvUnlock].
Proof.
  intros Hmu. destruct (lookup_trace (fac s) name) as [v|] eqn:Hn.
  - eexists _, _. split; [by eapply run_Delete_present|]. split.
    + apply run_Delete_absent; [done|].
      simpl. rewrite lookup_trace_delete. by case_decide.
    + repeat split; try apply set_traces_id.
  - eexists _, _. split; [by apply run_Delete_absent|]. split.
    + apply run_Delete_absent; [done|]. simpl. by rewrite set_traces_id.
    + repeat split; try apply set_traces_id.
Qed.

(** X3. Creating an entry and deleting it is a round trip for the store:
    when [n] has no entry, [LookupOrCreate(n, f)] followed by [Delete(n)]
    leaves every name, [n] included, looking up as before, and the same
    entries; the constructor has run once. *)
Theorem create_then_Delete_restores s name (new : ctor V W) :
  mu (fac s) = false →
  lookup_trace (fac s) name = None →
  ∃ s1 s2,
    run (LookupOrCreate name (Some new)) s = Returned (new (ext s)).1 s1
    ∧ run (Delete name) s1 = Returned () s2
    ∧ (∀ k, lookup_trace (fac s2) k = lookup_trace (fac s) k)
    ∧ entries (fac s2) = entries (fac s)
    ∧ Resolver (fac s2) = Resolver (fac s)
    ∧ Client (fac s2) = Client (fac s)
    ∧ ext s2 = (new (ext s)).2
    ∧ new_trace_calls (history s2) = S (new_trace_calls (history s)).
Proof.
  intros Hmu Hn. eexists _, _. split; [by apply run_LookupOrCreate_create|].
  split.
  { eapply run_Delete_present; [done|].
    simpl. rewrite lookup_trace_insert. by case_decide. }
  assert (delete name (<[name:=(new (ext s)).1]> (default ∅ (traces (fac s))))
          = default ∅ (traces (fac s))) as Hdel.
  { apply delete_insert_id. unfold lookup_trace in Hn.
    destruct (traces (fac s)); [done | apply lookup_empty]. }
  split; [|split; [|split; [|split; [|split]]]]; simpl; try done.
  - intros k. unfold lookup_trace at 1. simpl. rewrite Hdel.
    unfold lookup_trace. destruct (traces (fac s)); [done|]. apply lookup_empty.
  - unfold entries at 1. simpl. rewrite Hdel. apply entries_default.
  - count_events.
Qed.

(** What one call, whichever it is, does and does not do. *)
Lemma run_call_effect c s :
  mu (fac s) = false →
  ∃ s' e,
    run_call c s = Returned () s'
    ∧ mu (fac s') = false
    ∧ history s' = history s ++ e
    ∧ count is_lock e = count is_unlock e
    ∧ count is_new_trace e = count is_store e
    ∧ length (entries (fac s')) + count is_remove e
      = length (entries (fac s)) + count is_store e
    ∧ (∀ k, call_name c ≠ Some k →
            lookup_trace (fac s') k = lookup_trace (fac s) k)
    ∧ (locks c = true →
       Resolver (fac s') = Resolver (fac s) ∧ Client (fac s') = Client (fac s)).
Proof.
  intros Hmu. destruct c as [r c|n newTrace|n]; unfold run_call, call_name, locks.
  - rewrite run_Initialize. eexists _, []. split; [done|].
    repeat split; try done. simpl. by rewrite app_nil_r.
  - destruct (lookup_trace (fac s) n) as [v|] eqn:Hn;
      [|destruct newTrace as [new|]].
    + rewrite (run_LookupOrCreate_found _ _ _ v) by done.
      eexists _, _. split; [done|]. split; [done|]. split; [done|].
      simpl. rewrite set_traces_id. repeat split; try done; count_events.
    + rewrite run_LookupOrCreate_create by done.
      eexists _, _. split; [done|]. split; [done|]. split; [done|].
      simpl. rewrite length_entries_insert by done.
      split; [count_events|]. split; [count_events|]. split; [count_events|].
      split; [|done]. intros k Hk. rewrite lookup_trace_insert.
      case_decide; [congruence | done].
    + rewrite run_LookupOrCreate_nil by done.
      eexists _, _. split; [done|]. split; [done|]. split; [done|].
      simpl. rewrite entries_default.
      split; [count_events|]. split; [count_events|]. split; [count_events|].
      split; [|done]. intros k _. apply lookup_trace_default.
  - destruct (lookup_trace (fac s) n) as [v|] eqn:Hn.
    + rewrite (run_Delete_present _ _ v) by done.
      eexists _, _. split; [done|]. split; [done|]. split; [done|].
      simpl. pose proof (length_entries_delete (fac s) n v Hn).
      split; [count_events|]. split; [count_events|]. split; [count_events|].
      split; [|done]. intros k Hk. rewrite lookup_trace_delete.
      case_decide; [congruence | done].
    + rewrite run_Delete_absent by done.
      eexists _, _. split; [done|]. split; [done|]. split; [done|].
      simpl. rewrite set_traces_id. repeat split; try done; count_events.
Qed.

Lemma run_calls_effect cs s :
  mu (fac s) = false →
  ∃ s' e,
    run_calls cs s = Returned () s'
    ∧ mu (fac s') = false
    ∧ history s' = history s ++ e
    ∧ count is_lock e = count is_unlock e
    ∧ count is_new_trace e = count is_store e
    ∧ length (entries (fac s')) + count is_remove e
      = length (entries (fac s)) + count is_store e
    ∧ (∀ k, Forall (λ c, call_name c ≠ Some k) cs →
            lookup_trace (fac s') k = lookup_trace (fac s) k)
    ∧ (Forall (λ c, locks c = true) cs →
       Resolver (fac s') = Resolver (fac s) ∧ Client (fac s') = Client (fac s)).
Proof.
  revert s. induction cs as [|c cs IH]; intros s Hmu; simpl.
  - exists s, []. split; [done|]. split; [done|].
    split; [by rewrite app_nil_r|]. by repeat split.
  - destruct (run_call_effect c s Hmu)
      as (s1 & e1 & -> & Hmu1 & Hh1 & Hl1 & Hn1 & He1 & Hk1 & Hr1).
    destruct (IH s1 Hmu1)
      as (s2 & e2 & -> & Hmu2 & Hh2 & Hl2 & Hn2 & He2 & Hk2 & Hr2).
    exists s2, (e1 ++ e2). split; [done|]. split; [done|].
    split; [by rewrite Hh2, Hh1, app_assoc|].
    rewrite !count_app. split; [lia|]. split; [lia|]. split; [lia|]. split.
    + intros k [Hc Hcs]%Forall_cons. rewrite Hk2, Hk1; done.
    + intros [Hc Hcs]%Forall_cons.
      destruct (Hr1 Hc) as [<- <-]. by apply Hr2.
Qed.

(** X4. An entry is a per-name singleton: once [n] has the entry [v], and
    as long as no [Delete(n)] is called, every [LookupOrCreate(n, g)]
    returns [v], whatever [g] is, without invoking it and without changing
    the factory. *)
Theorem LookupOrCreate_stable s name v cs :
  mu (fac s) = false →
  lookup_trace (fac s) name = Some v →
  Forall (λ c, deletes name c = false) cs →
  ∃ s', run_calls cs s = Returned () s'
        ∧ ∀ g, ∃ s'',
            run (LookupOrCreate name g) s' = Returned v s''
            ∧ fac s'' = fac s'
            ∧ ext s'' = ext s'
            ∧ new_trace_calls (history s'') = new_trace_calls (history s').
Proof.
  intros Hmu Hn Hcs.
  destruct (run_calls_returns cs s Hmu) as (s' & Hrun & Hmu' & _ & Hkeep).
  exists s'. split; [done|]. intros g. eexists.
  split; [apply run_LookupOrCreate_found; by auto|].
  repeat split; [apply set_traces_id | count_events].
Qed.


(** X6. No constructed trace is dropped and no removal is idle: over every
    sequence of calls, there are as many stores as constructor invocations,
    and the number of entries has grown by the stores and shrunk by the
    removals. *)
Theorem constructions_are_stored cs s :
  mu (fac s) = false →
  ∃ s' e,
    run_calls cs s = Returned () s'
    ∧ history s' = history s ++ e
    ∧ count is_new_trace e = count is_store e
    ∧ length (entries (fac s')) + count is_remove e
      = length (entries (fac s)) + count is_store e.
Proof.
  intros Hmu.
  destruct (run_calls_effect cs s Hmu) as (s' & e & ? & _ & ? & _ & ? & ? & _).
  by exists s', e.
Qed.

(** X7. The names do not interfere: a sequence of calls none of which is
    about [k] leaves [k] as it was, with its entry or without one. *)
Theorem other_names_untouched cs s k :
  mu (fac s) = false →
  Forall (λ c, call_name c ≠ Some k) cs →
  ∃ s', run_calls cs s = Returned () s'
        ∧ lookup_trace (fac s') k = lookup_trace (fac s) k.
Proof.
  intros Hmu Hcs.
  destruct (run_calls_effect cs s Hmu) as (s' & e & ? & _ & _ & _ & _ & _ & Hk & _).
  exists s'. split; [done|]. by apply Hk.
Qed.

(** X8. Only [Initialize] binds the resolver and the client: after any
    sequence of [LookupOrCreate] and [Delete] calls both fields are what
    they were. *)
Theorem only_Initialize_binds cs s :
  mu (fac s) = false →
  Forall (λ c, locks c = true) cs →
  ∃ s', run_calls cs s = Returned () s'
        ∧ Resolver (fac s') = Resolver (fac s)
        ∧ Client (fac s') = Client (fac s).
Proof.
  intros Hmu Hcs.
  destruct (run_calls_effect cs s Hmu) as (s' & e & ? & _ & _ & _ & _ & _ & _ & Hr).
  exists s'. split; [done|]. by apply Hr.
Qed.

End Lifecycle.

(** ** Goroutines calling [LookupOrCreate] and [Delete], in any mix *)

Section Serializable.

Context {V W Res Cli : Type}.

Local Abbreviation state := (state V W Res Cli).
Local Abbreviation prog := (@prog V W Res Cli).
Local Abbreviation config := (config V W Res Cli).

Implicit Types (s b : state) (i j : nat) (order : list nat).

(** *** Log lines do not matter *)


Lemma same_effect_sym s s' : same_effect s s' → same_effect s' s.
Proof. by intros (? & ? & ?). Qed.

Lemma same_effect_trans s1 s2 s3 :
  same_effect s1 s2 → same_effect s2 s3 → same_effect s1 s3.
Proof. intros (? & ? & ?) (? & ? & ?). repeat split; congruence. Qed.

Lemma same_outcome_sym {A} (o o' : @outcome V W Res Cli A) :
  same_outcome o o' → same_outcome o' o.
Proof.
  destruct o, o'; simpl; try done. intros [-> ?]. by split; [|apply same_effect_sym].
Qed.

Lemma same_outcome_trans {A} (o1 o2 o3 : @outcome V W Res Cli A) :
  same_outcome o1 o2 → same_outcome o2 o3 → same_outcome o1 o3.
Proof.
  destruct o1, o2, o3; simpl; try done. intros [-> ?] [-> ?].
  split; [done|]. by eapply same_effect_trans.
Qed.

Lemma unlogged_app (h1 h2 : list (event V)) :
  unlogged (h1 ++ h2) = unlogged h1 ++ unlogged h2.
Proof. apply filter_app. Qed.

Lemma same_effect_log s m : same_effect s (with_fac s (fac s) [EvLog m]).
Proof.
  repeat split. simpl. rewrite unlogged_app. simpl.
  unfold unlogged at 3. rewrite filter_cons_False by done.
  by rewrite filter_nil, app_nil_r.
Qed.

(** An action does the same in two states that differ in their log lines. *)
Lemma exec_same_effect {X} (a : action X) s s' :
  same_effect s s' → same_outcome (exec a s) (exec a s').
Proof.
  destruct s as [f w h], s' as [f' w' h']. intros (Hf & Hw & Hh).
  simpl in Hf, Hw, Hh. subst f' w'.
  destruct a; simpl;
    repeat match goal with
    | |- context [mu f] => destruct (mu f)
    | |- context [traces f] => destruct (traces f)
    end; simpl;
    repeat split; simpl; rewrite ?unlogged_app, ?Hh; done.
Qed.

Lemma run_same_effect {A} (p : prog A) s s' :
  same_effect s s' → same_outcome (run p s) (run p s').
Proof.
  revert s s'. induction p as [v|X a k IH]; intros s s' Hs; simpl; [done|].
  pose proof (exec_same_effect a s s' Hs) as Ha.
  destruct (exec a s) as [x s1| |], (exec a s') as [x' s1'| |]; simpl in Ha;
    try done.
  destruct Ha as [-> Hs1]. by apply IH.
Qed.

Lemma pending_refl {A} (p : prog A) : pending p p.
Proof. intros s s'. apply run_same_effect. Qed.

(** *** One action of a goroutine *)

Lemma run_thread_step {A} (t t' : prog A) s s1 :
  thread_step t s = Some (t', s1) → run t s = run t' s1.
Proof.
  destruct t as [v|X a k]; simpl; [done|].
  destruct (exec a s); [|done..]. by intros [= <- <-].
Qed.

Lemma inside_is_ret {A} (t : prog A) : inside t → is_ret t = false.
Proof. by destruct t. Qed.

Lemma waiting_is_ret {A} (t : prog A) : waiting t → is_ret t = false.
Proof. by destruct t. Qed.

Lemma waiting_not_inside {A} (t : prog A) : waiting t → inside t → False.
Proof.
  induction t as [v|X a k IH]; simpl; [done|].
  destruct a; try done. intros Hw Hi. by apply (IH ()).
Qed.

(** Inside, the mutex stays held until the goroutine unlocks and returns. *)
Lemma inside_step {A} (t t' : prog A) s s1 :
  inside t → thread_step t s = Some (t', s1) → mu (fac s) = true →
  inside t' ∧ mu (fac s1) = true
  ∨ is_ret t' = true ∧ mu (fac s1) = false.
Proof.
  destruct t as [v|X a k]; simpl; [done|]. intros Hi Hstep Hmu.
  destruct a; simpl in Hi, Hstep; try done;
    try (injection Hstep as <- <-; left; by split);
    try (destruct (traces (fac s)); [|done]; injection Hstep as <- <-;
         left; by split).
  rewrite Hmu in Hstep. injection Hstep as <- <-. right.
  destruct Hi as [v ->]. by split.
Qed.

(** Before its [Lock], a goroutine logs, or takes the free mutex. *)
Lemma waiting_step {A} (t t' : prog A) s s1 :
  waiting t → thread_step t s = Some (t', s1) →
  (waiting t'
   ∧ ∃ m, s1 = with_fac s (fac s) [EvLog m]
          ∧ ∀ s2, run t s2 = run t' (with_fac s2 (fac s2) [EvLog m]))
  ∨ inside t' ∧ mu (fac s) = false ∧ mu (fac s1) = true.
Proof.
  destruct t as [v|X a k]; simpl; [done|]. intros Hw Hstep.
  destruct a; simpl in Hw, Hstep; try done.
  - destruct (mu (fac s)) eqn:Hmu; [done|]. injection Hstep as <- <-.
    right. by repeat split.
  - injection Hstep as <- <-. left. split; [done|]. by exists msg.
Qed.

Lemma run_all_snoc {A} (ps : list (prog A)) (p : prog A) s rs b v b' :
  run_all ps s = Returned rs b → run p b = Returned v b' →
  run_all (ps ++ [p]) s = Returned (rs ++ [v]) b'.
Proof.
  revert s rs. induction ps as [|q ps IH]; intros s rs; simpl.
  - intros [= <- <-] ->. done.
  - destruct (run q s) as [a s1| |]; [|done..].
    destruct (run_all ps s1) as [l s2| |] eqn:Hps; [|done..].
    intros [= <- <-] Hp. by rewrite (IH _ _ Hps Hp).
Qed.

(** *** One action keeps the goroutines serial *)

Lemma lookup_insert_cases {A} (ts : list (prog A)) i j (t t' x : prog A) :
  ts !! i = Some t → <[i:=t']> ts !! j = Some x →
  j = i ∧ x = t' ∨ j ≠ i ∧ ts !! j = Some x.
Proof.
  intros Hi Hj. apply lookup_lt_Some in Hi. destruct (decide (j = i)) as [->|Hne].
  - rewrite list_lookup_insert_eq in Hj by done. left. by simplify_eq.
  - rewrite list_lookup_insert_ne in Hj by done. by right.
Qed.

Lemma returned_insert {A} (ts : list (prog A)) i (t' : prog A) order (rs : list A) :
  i ∉ order →
  Forall2 (λ j v, ts !! j = Some (Ret v)) order rs →
  Forall2 (λ j v, <[i:=t']> ts !! j = Some (Ret v)) order rs.
Proof.
  intros Hi Hall. induction Hall as [|j v order rs Hj _ IH]; [constructor|].
  apply not_elem_of_cons in Hi as [Hne Hi]. constructor; [|by apply IH].
  by rewrite list_lookup_insert_ne.
Qed.

Lemma returned_lookup {A} (ts : list (prog A)) order (rs : list A) i :
  Forall2 (λ j v, ts !! j = Some (Ret v)) order rs → i ∈ order →
  ∃ v, ts !! i = Some (Ret v).
Proof.
  intros Hall [k Hk]%list_elem_of_lookup.
  destruct (Forall2_lookup_l _ _ _ _ _ Hall Hk) as (v & _ & Hv). eauto.
Qed.

Lemma serial_inv_step {A} (ps : list (prog A)) s0 (c c' : config A) order rs b :
  serial_inv ps s0 c order rs b → step c c' →
  ∃ order' rs' b', serial_inv ps s0 c' order' rs' b'.
Proof.
  intros (Hlen & Hnd & Hrun & Hmub & Hdone & Hrest & Hexcl & Hfree & Hheld) Hstep.
  destruct Hstep as [c i t t' s1 Hi Hts].
  pose proof (lookup_lt_Some _ _ _ Hi) as Hlt.
  pose proof (run_thread_step _ _ _ _ Hts) as Hsame_run.
  destruct (decide (i ∈ order)) as [Hin|Hout].
  { destruct (returned_lookup _ _ _ _ Hdone Hin) as [v Hv]. by simplify_eq. }
  destruct (Hrest i t Hi Hout) as (p & Hp & [[Hw Hpend]|(Hins & Hmu & Hrunp)]).
  - destruct (waiting_step _ _ _ _ Hw Hts)
      as [(Hw' & m & -> & Hlog)|(Hins' & Hmu0 & Hmu1)].
    + (* a log line *)
      exists order, rs, b. unfold serial_inv. simpl.
      split; [by rewrite length_insert|]. split; [done|]. split; [done|].
      split; [done|]. split; [by apply returned_insert|].
      split; [|split; [|split]].
      * intros j tj Hj Hjn.
        destruct (lookup_insert_cases _ _ _ _ _ _ Hi Hj) as [[-> ->]|[Hne Hj']].
        -- exists p. split; [done|]. left. split; [done|]. intros sa sb Hab.
           eapply same_outcome_trans; [|by apply Hpend].
           rewrite (Hlog sa). apply run_same_effect, same_effect_log.
        -- destruct (Hrest j tj Hj' Hjn) as (pj & Hpj & [?|(? & ? & Hrunj)]);
             exists pj; (split; [done|]); [by left|right].
           split; [done|]. split; [done|].
           eapply same_outcome_trans; [|done].
           apply run_same_effect, same_effect_sym, same_effect_log.
      * intros j j' tj tj' Hj Hj' Hinj Hinj'.
        destruct (lookup_insert_cases _ _ _ _ _ _ Hi Hj) as [[-> ->]|[Hne Hj1]];
          [by destruct (waiting_not_inside t')|].
        destruct (lookup_insert_cases _ _ _ _ _ _ Hi Hj') as [[-> ->]|[Hne' Hj1']];
          [by destruct (waiting_not_inside t')|].
        by eapply Hexcl.
      * intros Hmu. destruct (Hfree Hmu) as [Hb Hno]. split.
        -- eapply same_effect_trans; [done | apply same_effect_log].
        -- intros j tj Hj Hinj.
           destruct (lookup_insert_cases _ _ _ _ _ _ Hi Hj) as [[-> ->]|[Hne Hj1]];
             [by destruct (waiting_not_inside t') | by eapply Hno].
      * intros Hmu. destruct (Hheld Hmu) as (h & th & Hh & Hinh).
        exists h, th. split; [|done]. rewrite list_lookup_insert_ne; [done|].
        intros ->. simplify_eq. by destruct (waiting_not_inside t).
    + (* Lock *)
      destruct (Hfree Hmu0) as [Hb Hno].
      exists order, rs, b. unfold serial_inv. simpl.
      split; [by rewrite length_insert|]. split; [done|]. split; [done|].
      split; [done|]. split; [by apply returned_insert|].
      split; [|split; [|split]].
      * intros j tj Hj Hjn.
        destruct (lookup_insert_cases _ _ _ _ _ _ Hi Hj) as [[-> ->]|[Hne Hj']].
        -- exists p. split; [done|]. right. split; [done|]. split; [done|].
           rewrite <- Hsame_run. by apply Hpend, same_effect_sym.
        -- destruct (Hrest j tj Hj' Hjn) as (pj & Hpj & [?|(Hinj & _)]);
             [|by destruct (Hno j tj)].
           exists pj. split; [done|]. by left.
      * intros j j' tj tj' Hj Hj' Hinj Hinj'.
        destruct (lookup_insert_cases _ _ _ _ _ _ Hi Hj) as [[-> ->]|[Hne Hj1]];
          [|by destruct (Hno j tj)].
        destruct (lookup_insert_cases _ _ _ _ _ _ Hi Hj') as [[-> ->]|[Hne' Hj1']];
          [done | by destruct (Hno j' tj')].
      * intros Hmu. congruence.
      * intros _. exists i, t'. split; [|done]. by apply list_lookup_insert_eq.
  - assert (∀ j tj, j ≠ i → threads c !! j = Some tj → ¬ inside tj) as Hno.
    { intros j tj Hne Hj Hinj. apply Hne. by eapply Hexcl. }
    destruct (inside_step _ _ _ _ Hins Hts Hmu) as [[Hins' Hmu1]|[Hret Hmu1]].
    + (* inside the critical section *)
      exists order, rs, b. unfold serial_inv. simpl.
      split; [by rewrite length_insert|]. split; [done|]. split; [done|].
      split; [done|]. split; [by apply returned_insert|].
      split; [|split; [|split]].
      * intros j tj Hj Hjn.
        destruct (lookup_insert_cases _ _ _ _ _ _ Hi Hj) as [[-> ->]|[Hne Hj']].
        -- exists p. split; [done|]. right. split; [done|]. split; [done|].
           by rewrite <- Hsame_run.
        -- destruct (Hrest j tj Hj' Hjn) as (pj & Hpj & [?|(Hinj & _)]);
             [|by destruct (Hno j tj)].
           exists pj. split; [done|]. by left.
      * intros j j' tj tj' Hj Hj' Hinj Hinj'.
        destruct (lookup_insert_cases _ _ _ _ _ _ Hi Hj) as [[-> ->]|[Hne Hj1]];
          [|by destruct (Hno j tj)].
        destruct (lookup_insert_cases _ _ _ _ _ _ Hi Hj') as [[-> ->]|[Hne' Hj1']];
          [done | by destruct (Hno j' tj')].
      * intros Hmu'. congruence.
      * intros _. exists i, t'. split; [|done]. by apply list_lookup_insert_eq.
    + (* Unlock, and the return *)
      destruct t' as [v|]; [|done]. rewrite Hsame_run in Hrunp. simpl in Hrunp.
      destruct (run p b) as [v' b'| |] eqn:Hpb; [|done..].
      destruct Hrunp as [<- Hb'].
      exists (order ++ [i]), (rs ++ [v]), b'. unfold serial_inv. simpl.
      split; [by rewrite length_insert|].
      split. { apply NoDup_app. split; [done|]. split; [|apply NoDup_singleton].
               intros x Hx ->%list_elem_of_singleton. done. }
      split. { rewrite omap_app. simpl. rewrite Hp. simpl.
               by eapply run_all_snoc. }
      split. { destruct Hb' as (<- & _). done. }
      split. { apply Forall2_app; [by apply returned_insert|].
               repeat constructor. by apply list_lookup_insert_eq. }
      split; [|split; [|split]].
      * intros j tj Hj Hjn. apply not_elem_of_app in Hjn as [Hjn Hji].
        apply not_elem_of_cons in Hji as [Hne _].
        rewrite list_lookup_insert_ne in Hj by done.
        destruct (Hrest j tj Hj Hjn) as (pj & Hpj & [?|(Hinj & _)]);
          [|by destruct (Hno j tj)].
        exists pj. split; [done|]. by left.
      * intros j j' tj tj' Hj Hj' Hinj Hinj'.
        destruct (lookup_insert_cases _ _ _ _ _ _ Hi Hj) as [[-> ->]|[Hne Hj1]];
          [done | by destruct (Hno j tj)].
      * intros _. split; [by apply same_effect_sym|]. intros j tj Hj Hinj.
        destruct (lookup_insert_cases _ _ _ _ _ _ Hi Hj) as [[-> ->]|[Hne Hj1]];
          [done | by destruct (Hno j tj)].
      * intros Hmu'. congruence.
Qed.

Lemma serial_inv_initial {A} (ps : list (prog A)) s0 :
  Forall waiting ps → mu (fac s0) = false →
  serial_inv ps s0 {| shared := s0; threads := ps |} [] [] s0.
Proof.
  intros Hps Hmu. unfold serial_inv. simpl.
  split; [done|]. split; [constructor|]. split; [done|]. split; [done|].
  split; [constructor|]. split; [|split; [|split]].
  - intros i t Hi _. exists t. split; [done|]. left.
    split; [by eapply Forall_lookup_1 | apply pending_refl].
  - intros i j t t' Hi _ Hin _.
    destruct (waiting_not_inside t); [by eapply Forall_lookup_1 | done].
  - intros _. split; [done|]. intros i t Hi Hin.
    destruct (waiting_not_inside t); [by eapply Forall_lookup_1 | done].
  - congruence.
Qed.

Lemma serial_inv_rtc {A} (ps : list (prog A)) s0 (c c' : config A) order rs b :
  rtc step c c' → serial_inv ps s0 c order rs b →
  ∃ order' rs' b', serial_inv ps s0 c' order' rs' b'.
Proof.
  intros Hsteps. revert order rs b.
  induction Hsteps as [c|c c1 c' Hstep _ IH]; intros order rs b Hinv; [by eauto|].
  destruct (serial_inv_step _ _ _ _ _ _ _ Hinv Hstep) as (o1 & r1 & b1 & Hinv1).
  by eapply IH.
Qed.

(** *** Running a goroutine to its return *)






(** When all have returned, every goroutine is in the order. *)
Lemma serial_inv_all_returned {A} (ps : list (prog A)) s0 (c : config A) order rs b :
  serial_inv ps s0 c order rs b →
  (∀ i t, threads c !! i = Some t → is_ret t = true) →
  order ≡ₚ seq 0 (length ps) ∧ same_effect b (shared c).
Proof.
  intros (Hlen & Hnd & _ & _ & Hdone & Hrest & _ & Hfree & Hheld) Hall. split.
  - apply NoDup_Permutation; [done | apply NoDup_seq|]. intros i.
    rewrite elem_of_seq. split.
    + intros Hin. destruct (returned_lookup _ _ _ _ Hdone Hin) as [v Hv].
      apply lookup_lt_Some in Hv. lia.
    + intros [_ Hlt]. destruct (decide (i ∈ order)) as [|Hout]; [done|].
      destruct (lookup_lt_is_Some_2 (threads c) i) as [t Hi]; [lia|].
      pose proof (Hall i t Hi) as Ht.
      destruct (Hrest i t Hi Hout) as (p & _ & [[Hw _]|(Hin & _)]).
      * apply waiting_is_ret in Hw. congruence.
      * apply inside_is_ret in Hin. congruence.
  - destruct (mu (fac (shared c))) eqn:Hmu; [|by apply Hfree].
    destruct (Hheld eq_refl) as (i & t & Hi & Hin).
    apply inside_is_ret in Hin. rewrite (Hall i t Hi) in Hin. done.
Qed.

(** *** The methods as goroutines *)

Lemma run_bind {A B} (p : prog A) (f : A → prog B) s :
  run (p ≫= f) s
  = match run p s with
    | Returned a s' => run (f a) s'
    | Blocked => Blocked
    | Panicked => Panicked
    end.
Proof.
  revert s. induction p as [v|X a k IH]; intros s; simpl; [done|].
  destruct (exec a s) as [x s1| |]; [|done..]. apply IH.
Qed.

Lemma waiting_call_prog (c : call V W Res Cli) :
  locks c = true → waiting (call_prog c).
Proof.
  destruct c as [r cl|name newTrace|name]; simpl; [done|..]; intros _.
  - intros [|]; [intros []|intros [trace|]]; simpl; eauto;
      destruct newTrace; simpl; eauto.
  - intros [trace|]; simpl; eauto.
Qed.


Lemma goroutines_serial_inv (cs : list (call V W Res Cli)) s0 c :
  Forall (λ c, locks c = true) cs →
  mu (fac s0) = false →
  rtc step {| shared := s0; threads := call_prog <$> cs |} c →
  ∃ order rs b, serial_inv (call_prog <$> cs) s0 c order rs b.
Proof.
  intros Hcs Hmu Hsteps. eapply serial_inv_rtc; [done|].
  apply serial_inv_initial; [|done].
  apply Forall_fmap. eapply Forall_impl; [done|]. apply waiting_call_prog.
Qed.

Lemma omap_lookup_fmap {A B} (f : A → B) (l : list A) order :
  omap ((f <$> l) !!.) order = f <$> omap (l !!.) order.
Proof.
  induction order as [|i order IH]; [done|]. csimpl.
  rewrite list_lookup_fmap, IH. by destruct (l !! i).
Qed.

(** X9. However goroutines calling [LookupOrCreate] and [Delete], with any
    names and constructors, interleave: at most one of them is past its
    [Lock] and before its return; none is while the mutex is free, one is
    while it is held. *)
Theorem calls_exclude_each_other (cs : list (call V W Res Cli)) s0 c :
  Forall (λ c, locks c = true) cs →
  mu (fac s0) = false →
  rtc step {| shared := s0; threads := call_prog <$> cs |} c →
  (∀ i j t t', threads c !! i = Some t → threads c !! j = Some t' →
               inside t → inside t' → i = j)
  ∧ (mu (fac (shared c)) = false → ∀ i t, threads c !! i = Some t → ¬ inside t)
  ∧ (mu (fac (shared c)) = true → ∃ i t, threads c !! i = Some t ∧ inside t).
Proof.
  intros Hcs Hmu Hsteps.
  destruct (goroutines_serial_inv cs s0 c Hcs Hmu Hsteps)
    as (order & rs & b & _ & _ & _ & _ & _ & _ & Hexcl & Hfree & Hheld).
  split; [done|]. split; [|done]. intros Hm. by apply Hfree.
Qed.

(** X10. Concurrent calls of [LookupOrCreate] and [Delete] are
    serializable: when the goroutines have all returned, whatever the
    interleaving was, there is an order of the calls such that running them
    one after the other in that order gives every goroutine the result it
    got, and the same factory, callbacks' state and history, log lines
    apart. *)
Theorem calls_are_serializable (cs : list (call V W Res Cli)) s0 c :
  Forall (λ c, locks c = true) cs →
  mu (fac s0) = false →
  rtc step {| shared := s0; threads := call_prog <$> cs |} c →
  (∀ i t, threads c !! i = Some t → is_ret t = true) →
  ∃ order rs b,
    order ≡ₚ seq 0 (length cs)
    ∧ run_all (call_prog <$> omap (cs !!.) order) s0 = Returned rs b
    ∧ Forall2 (λ i v, threads c !! i = Some (Ret v)) order rs
    ∧ fac (shared c) = fac b
    ∧ ext (shared c) = ext b
    ∧ unlogged (history (shared c)) = unlogged (history b).
Proof.
  intros Hcs Hmu Hsteps Hall.
  destruct (goroutines_serial_inv cs s0 c Hcs Hmu Hsteps)
    as (order & rs & b & Hinv).
  destruct (serial_inv_all_returned _ _ _ _ _ _ Hinv Hall) as [Hperm Hsame].
  destruct Hinv as (_ & _ & Hrun & _ & Hdone & _).
  exists order, rs, b. rewrite length_fmap in Hperm. split; [done|].
  rewrite <- omap_lookup_fmap. split; [done|]. split; [done|].
  by destruct Hsame as (-> & -> & ->).
Qed.


(** *** Races on one name, read off a serial order *)

Lemma count_unlogged (p : event V → bool) (h : list (event V)) :
  (∀ m, p (EvLog m) = false) → count p (unlogged h) = count p h.
Proof.
  intros Hp. induction h as [|e h IH]; [done|]. unfold unlogged.
  destruct e; rewrite ?filter_cons_True, ?filter_cons_False by done;
    fold (unlogged h); rewrite ?count_cons, ?Hp, IH; lia.
Qed.

Lemma Forall_omap_lookup {B} (P : B → Prop) (l : list B) order :
  Forall P l → Forall P (omap (l !!.) order).
Proof.
  intros Hl. induction order as [|i order IH]; [constructor|]. csimpl.
  destruct (l !! i) as [x|] eqn:Hi; [|done].
  constructor; [exact (Forall_lookup_1 _ _ _ _ Hl Hi) | done].
Qed.

Lemma omap_lookup_nonempty {B} (l : list B) order :
  l ≠ [] → order ≡ₚ seq 0 (length l) → omap (l !!.) order ≠ [].
Proof.
  intros Hl Hperm. destruct order as [|i order].
  - apply Permutation_nil_l in Hperm. destruct l; [done|]. done.
  - assert (i ∈ seq 0 (length l)) as [_ Hi]%elem_of_seq.
    { rewrite <- Hperm. by left. }
    destruct (lookup_lt_is_Some_2 l i) as [x Hx]; [lia|].
    csimpl. by rewrite Hx.
Qed.

(** Every goroutine is in a serial order of them all, with its result. *)
Lemma result_in_order {A} (ts : list (prog A)) order (rs : list A) N i t :
  order ≡ₚ seq 0 N → length ts = N →
  Forall2 (λ j v, ts !! j = Some (Ret v)) order rs →
  ts !! i = Some t → ∃ v, v ∈ rs ∧ t = Ret v.
Proof.
  intros Hperm Hlen Hdone Hi.
  assert (i ∈ order) as [k Hk]%list_elem_of_lookup.
  { rewrite Hperm. apply elem_of_seq. apply lookup_lt_Some in Hi. lia. }
  destruct (Forall2_lookup_l _ _ _ _ _ Hdone Hk) as (v & Hv & Hiv).
  exists v. split; [by eapply list_elem_of_lookup_2 | congruence].
Qed.

Lemma run_all_cons {A} (p : prog A) (ps : list (prog A)) s :
  run_all (p :: ps) s
  = match run p s with
    | Returned a s' =>
        match run_all ps s' with
        | Returned l s'' => Returned (a :: l) s''
        | Blocked => Blocked
        | Panicked => Panicked
        end
    | Blocked => Blocked
    | Panicked => Panicked
    end.
Proof. done. Qed.

Lemma run_all_found name v (cs : list (call V W Res Cli)) s :
  Forall (λ c, ∃ new, c = CallLookupOrCreate name (Some new)) cs →
  mu (fac s) = false →
  lookup_trace (fac s) name = Some v →
  ∃ b, run_all (call_prog <$> cs) s = Returned (replicate (length cs) v) b
       ∧ fac b = fac s
       ∧ ext b = ext s
       ∧ new_trace_calls (history b) = new_trace_calls (history s).
Proof.
  revert s. induction cs as [|c cs IH]; intros s Hcs Hmu Hn.
  - by exists s.
  - apply Forall_cons in Hcs as [[new ->] Hcs].
    rewrite fmap_cons, run_all_cons. cbn [call_prog length replicate].
    rewrite (run_LookupOrCreate_found _ _ _ v) by done.
    set (s1 := after s _ _ _).
    assert (fac s1 = fac s) as Hf by apply set_traces_id.
    destruct (IH s1 Hcs) as (b & -> & Hfb & Heb & Hcb); [by rewrite Hf..|].
    exists b. split; [done|]. split; [congruence|]. split; [done|].
    rewrite Hcb. subst s1. count_events.
Qed.

Lemma run_all_gone name (cs : list (call V W Res Cli)) s :
  Forall (λ c, c = CallDelete name) cs →
  mu (fac s) = false →
  lookup_trace (fac s) name = None →
  ∃ rs b, run_all (call_prog <$> cs) s = Returned rs b
          ∧ fac b = fac s
          ∧ ext b = ext s
          ∧ count (removes_of name) (history b)
            = count (removes_of name) (history s).
Proof.
  revert s. induction cs as [|c cs IH]; intros s Hcs Hmu Hn.
  - by exists [], s.
  - apply Forall_cons in Hcs as [-> Hcs].
    rewrite fmap_cons, run_all_cons. cbn [call_prog].
    rewrite run_bind, run_Delete_absent by done. cbn [run mret prog_mret].
    set (s1 := after s _ _ _).
    assert (fac s1 = fac s) as Hf by apply set_traces_id.
    destruct (IH s1 Hcs) as (rs & b & -> & Hfb & Heb & Hcb); [by rewrite Hf..|].
    eexists _, b. split; [done|]. split; [congruence|]. split; [done|].
    rewrite Hcb. subst s1. count_events.
Qed.

(** X12. Goroutines racing to create the same name agree, also when each
    brings a constructor of its own: when they have all returned, they
    have all got one and the same value, that value is the entry of the
    name, and one constructor has been invoked, once. *)
Theorem racing_constructors_agree (cs : list (call V W Res Cli)) name s0 c :
  cs ≠ [] →
  Forall (λ c, ∃ new, c = CallLookupOrCreate name (Some new)) cs →
  mu (fac s0) = false →
  lookup_trace (fac s0) name = None →
  rtc step {| shared := s0; threads := call_prog <$> cs |} c →
  (∀ i t, threads c !! i = Some t → is_ret t = true) →
  ∃ v, (∀ i t, threads c !! i = Some t → t = Ret v)
       ∧ lookup_trace (fac (shared c)) name = Some v
       ∧ new_trace_calls (history (shared c)) = S (new_trace_calls (history s0)).
Proof.
  intros Hne Hcs Hmu Hn Hsteps Hall.
  assert (Forall (λ c, locks c = true) cs) as Hlocks.
  { eapply Forall_impl; [done|]. by intros ? [new ->]. }
  destruct (goroutines_serial_inv cs s0 c Hlocks Hmu Hsteps)
    as (order & rs & b & Hinv).
  destruct (serial_inv_all_returned _ _ _ _ _ _ Hinv Hall) as [Hperm Hsame].
  destruct Hinv as (Hlen & _ & Hrun & _ & Hdone & _).
  rewrite omap_lookup_fmap in Hrun. rewrite length_fmap in Hperm, Hlen.
  pose proof (omap_lookup_nonempty cs order Hne Hperm) as Hne'.
  pose proof (Forall_omap_lookup _ cs order Hcs) as Hcs'.
  destruct (omap (cs !!.) order) as [|c1 cs1]; [done|].
  apply Forall_cons in Hcs' as [[new ->] Hcs1].
  rewrite fmap_cons, run_all_cons in Hrun. cbn [call_prog] in Hrun.
  rewrite run_LookupOrCreate_create in Hrun by done.
  set (v := (new (ext s0)).1) in *. set (s1 := after s0 _ _ _) in Hrun.
  assert (lookup_trace (fac s1) name = Some v) as Hn1.
  { subst s1. simpl. rewrite lookup_trace_insert. by case_decide. }
  destruct (run_all_found name v cs1 s1 Hcs1 Hmu Hn1) as (b1 & Hrun1 & Hf1 & _ & Hc1).
  rewrite Hrun1 in Hrun. injection Hrun as <- <-.
  destruct Hsame as (Hf & _ & Hh).
  exists v. split; [|split].
  - intros i t Hi.
    destruct (result_in_order _ _ _ _ i t Hperm Hlen Hdone Hi) as (v' & Hv' & ->).
    apply elem_of_cons in Hv' as [->|[-> _]%elem_of_replicate]; done.
  - by rewrite <- Hf, Hf1.
  - unfold new_trace_calls.
    rewrite <- (count_unlogged is_new_trace (history (shared c))) by done.
    rewrite <- Hh, count_unlogged by done.
    fold (new_trace_calls (history b1)). rewrite Hc1. subst s1. count_events.
Qed.

(** X13. Goroutines racing to delete the same name: when they have all
    returned, the entry is gone, it was removed once, and the other names
    and the callbacks' state are as before. *)
Theorem racing_Deletes_remove_once N name v s0 c :
  0 < N →
  mu (fac s0) = false →
  lookup_trace (fac s0) name = Some v →
  rtc step {| shared := s0;
              threads := call_prog <$> replicate N (CallDelete name) |} c →
  (∀ i t, threads c !! i = Some t → is_ret t = true) →
  lookup_trace (fac (shared c)) name = None
  ∧ (∀ k, k ≠ name →
          lookup_trace (fac (shared c)) k = lookup_trace (fac s0) k)
  ∧ ext (shared c) = ext s0
  ∧ count (removes_of name) (history (shared c))
    = S (count (removes_of name) (history s0)).
Proof.
  intros HN Hmu Hn Hsteps Hall.
  set (cs := replicate N (CallDelete name : call V W Res Cli)) in *.
  assert (Forall (λ c, c = CallDelete name) cs) as Hcs.
  { by apply Forall_replicate. }
  assert (cs ≠ []) as Hne by (subst cs; destruct N; [lia | done]).
  assert (Forall (λ c, locks c = true) cs) as Hlocks.
  { eapply Forall_impl; [done|]. by intros ? ->. }
  destruct (goroutines_serial_inv cs s0 c Hlocks Hmu Hsteps)
    as (order & rs & b & Hinv).
  destruct (serial_inv_all_returned _ _ _ _ _ _ Hinv Hall) as [Hperm Hsame].
  destruct Hinv as (Hlen & _ & Hrun & _ & Hdone & _).
  rewrite omap_lookup_fmap in Hrun. rewrite length_fmap in Hperm.
  pose proof (omap_lookup_nonempty cs order Hne Hperm) as Hne'.
  pose proof (Forall_omap_lookup _ cs order Hcs) as Hcs'.
  destruct (omap (cs !!.) order) as [|c1 cs1]; [done|].
  apply Forall_cons in Hcs' as [-> Hcs1].
  rewrite fmap_cons, run_all_cons in Hrun. cbn [call_prog] in Hrun.
  rewrite run_bind, (run_Delete_present _ _ v) in Hrun by done.
  cbn [run mret prog_mret] in Hrun.
  set (s1 := after s0 _ _ _) in Hrun.
  assert (lookup_trace (fac s1) name = None) as Hn1.
  { subst s1. simpl. rewrite lookup_trace_delete. by case_decide. }
  destruct (run_all_gone name cs1 s1 Hcs1 Hmu Hn1) as (rs1 & b1 & Hrun1 & Hf1 & He1 & Hc1).
  rewrite Hrun1 in Hrun. injection Hrun as <- <-.
  destruct Hsame as (Hf & He & Hh).
  split; [by rewrite <- Hf, Hf1|]. split; [|split].
  - intros k Hk. rewrite <- Hf, Hf1. subst s1. simpl.
    rewrite lookup_trace_delete. by case_decide.
  - by rewrite <- He, He1.
  - rewrite <- (count_unlogged (removes_of name) (history (shared c))) by done.
    rewrite <- Hh, count_unlogged by done.
    rewrite Hc1. subst s1. simpl. rewrite !count_app, !count_cons, count_nil.
    simpl. rewrite bool_decide_eq_true_2 by done. lia.
Qed.

(** X14. [Initialize] is not guarded by the mutex, and two concurrent
    calls can mix: there is an interleaving of [Initialize(r1, c1)] and
    [Initialize(r2, c2)] after which the factory has the resolver of the
    second and the client of the first, whereas the two calls one after the
    other, in either order, leave the resolver and the client of the later
    call. *)
Theorem Initialize_calls_can_mix s (r1 r2 : option Res) (c1 c2 : option Cli) :
  (∃ c, rtc step {| shared := s; threads := [Initialize r1 c1; Initialize r2 c2] |} c
        ∧ threads c = [Ret (); Ret ()]
        ∧ Resolver (fac (shared c)) = r2
        ∧ Client (fac (shared c)) = c1
        ∧ traces (fac (shared c)) = traces (fac s))
  ∧ (∀ s', run_calls [CallInitialize r1 c1; CallInitialize r2 c2] s = Returned () s' →
           Resolver (fac s') = r2 ∧ Client (fac s') = c2)
  ∧ (∀ s', run_calls [CallInitialize r2 c2; CallInitialize r1 c1] s = Returned () s' →
           Resolver (fac s') = r1 ∧ Client (fac s') = c1).
Proof.
  split; [|split].
  - eexists. split.
    + eapply rtc_nsteps_2. by apply (run_schedule_nsteps [0; 1; 1; 0]).
    + done.
  - by intros s' [= <-].
  - by intros s' [= <-].
Qed.

End Serializable.

(** ** The further theorems at sample inputs *)

Lemma Delete_removes_one_entry_witness :
  lookup_trace (fac one_trace) "t1" = Some (Some "Foo")
  ∧ ∃ s', run (Delete "t1") one_trace = Returned () s'
          ∧ lookup_trace (fac s') "t1" = None
          ∧ length (entries (fac s')) = 0.
Proof.
  split; [vm_compute; reflexivity|].
  destruct (Delete_removes_one_entry one_trace "t1" (Some "Foo") eq_refl
              ltac:(vm_compute; reflexivity))
    as (s' & Hrun & Hgone & _ & Hlen & _).
  exists s'. split; [exact Hrun|]. split; [exact Hgone|].
  vm_compute in Hlen. injection Hlen as Hlen. exact Hlen.
Defined.

Lemma Delete_twice_witness :
  ∃ s1 s2, run (Delete "t1") one_trace = Returned () s1
           ∧ run (Delete "t1") s1 = Returned () s2
           ∧ fac s2 = fac s1.
Proof.
  destruct (Delete_twice one_trace "t1" eq_refl) as (s1 & s2 & H1 & H2 & Hf & _).
  exists s1, s2. split; [exact H1|]. split; [exact H2 | exact Hf].
Defined.

Lemma create_then_Delete_restores_witness :
  lookup_trace (fac one_trace) "t2" = None
  ∧ ∃ s1 s2, run (LookupOrCreate "t2" (Some makeBar)) one_trace
             = Returned (Some "Bar") s1
             ∧ run (Delete "t2") s1 = Returned () s2
             ∧ entries (fac s2) = entries (fac one_trace).
Proof.
  split; [vm_compute; reflexivity|].
  destruct (create_then_Delete_restores one_trace "t2" makeBar eq_refl
              ltac:(vm_compute; reflexivity))
    as (s1 & s2 & H1 & H2 & _ & Hent & _).
  exists s1, s2. split; [exact H1|]. split; [exact H2 | exact Hent].
Defined.

Lemma LookupOrCreate_stable_witness :
  ∃ s', run_calls [CallLookupOrCreate "t2" (Some makeBar); CallDelete "t2";
                   CallInitialize None None] one_trace
        = Returned () s'
        ∧ ∃ s'', run (LookupOrCreate "t1" (Some makeBar)) s'
                 = Returned (Some "Foo") s''.
Proof.
  destruct (LookupOrCreate_stable one_trace "t1" (Some "Foo")
              [CallLookupOrCreate "t2" (Some makeBar); CallDelete "t2";
               CallInitialize None None]
              eq_refl ltac:(vm_compute; reflexivity)
              ltac:(repeat constructor; vm_compute; reflexivity))
    as (s' & Hrun & Hget).
  exists s'. split; [exact Hrun|].
  destruct (Hget (Some makeBar)) as (s'' & Hrun' & _).
  exists s''. exact Hrun'.
Defined.


Lemma constructions_are_stored_witness :
  ∃ s' e, run_calls busy_day untouched = Returned () s'
          ∧ history s' = e
          ∧ count is_new_trace e = count is_store e
          ∧ length (entries (fac s')) + count is_remove e = count is_store e.
Proof.
  destruct (constructions_are_stored busy_day untouched eq_refl)
    as (s' & e & Hrun & Hh & Hn & He).
  exists s', e. split; [exact Hrun|]. split; [exact Hh|].
  split; [exact Hn | exact He].
Defined.

Lemma other_names_untouched_witness :
  ∃ s', run_calls [CallLookupOrCreate "t2" (Some makeBar); CallDelete "t3";
                   CallInitialize None None] one_trace
        = Returned () s'
        ∧ lookup_trace (fac s') "t1" = Some (Some "Foo").
Proof.
  destruct (other_names_untouched
              [CallLookupOrCreate "t2" (Some makeBar); CallDelete "t3";
               CallInitialize None None] one_trace "t1" eq_refl
              ltac:(repeat constructor; discriminate))
    as (s' & Hrun & Hk).
  exists s'. split; [exact Hrun|].
  rewrite Hk. vm_compute. reflexivity.
Defined.

Lemma only_Initialize_binds_witness :
  ∃ s', run_calls create_and_delete one_trace = Returned () s'
        ∧ Resolver (fac s') = Some ()
        ∧ Client (fac s') = Some ().
Proof.
  destruct (only_Initialize_binds create_and_delete one_trace eq_refl
              ltac:(repeat constructor))
    as (s' & Hrun & Hr & Hc).
  exists s'. split; [exact Hrun|]. split; [exact Hr | exact Hc].
Defined.

(** [Delete("t1")] logs, [LookupOrCreate("t1", makeFoo)] takes the mutex. *)
Lemma calls_exclude_each_other_witness :
  ∃ c, run_schedule [1; 0] (goroutines create_and_delete untouched) = Some c
       ∧ mu (fac (shared c)) = true
       ∧ ∃ i t, threads c !! i = Some t ∧ inside t.
Proof.
  destruct (run_schedule [1; 0] (goroutines create_and_delete untouched))
    as [c|] eqn:Hrun; [|vm_compute in Hrun; discriminate Hrun].
  exists c. split; [reflexivity|].
  destruct (calls_exclude_each_other create_and_delete untouched c
              ltac:(repeat constructor) eq_refl
              (rtc_nsteps_2 _ _ _ (run_schedule_nsteps [1; 0] _ _ Hrun)))
    as (_ & _ & Hheld).
  assert (mu (fac (shared c)) = true) as Hmu.
  { vm_compute in Hrun. injection Hrun as <-. reflexivity. }
  split; [exact Hmu | exact (Hheld Hmu)].
Defined.

(** [Delete("t1")] logs, [LookupOrCreate("t1", makeFoo)] runs to its end,
    [Delete("t1")] goes on and removes what was created. *)
Lemma calls_are_serializable_witness :
  ∃ c, run_schedule [1; 0; 0; 0; 0; 0; 0; 1; 1; 1; 1]
         (goroutines create_and_delete untouched) = Some c
       ∧ threads c = [Ret (Some "Foo"); Ret None]
       ∧ ∃ order rs b,
           order ≡ₚ [0; 1]
           ∧ run_all (call_prog <$> omap (create_and_delete !!.) order) untouched
             = Returned rs b
           ∧ fac (shared c) = fac b.
Proof.
  destruct (run_schedule [1; 0; 0; 0; 0; 0; 0; 1; 1; 1; 1]
              (goroutines create_and_delete untouched))
    as [c|] eqn:Hrun; [|vm_compute in Hrun; discriminate Hrun].
  exists c. split; [reflexivity|].
  assert (threads c = [Ret (Some "Foo"); Ret None]) as Hts.
  { vm_compute in Hrun. injection Hrun as <-. reflexivity. }
  split; [exact Hts|].
  destruct (calls_are_serializable create_and_delete untouched c
              ltac:(repeat constructor) eq_refl
              (rtc_nsteps_2 _ _ _ (run_schedule_nsteps _ _ _ Hrun)))
    as (order & rs & b & Hperm & Hall & _ & Hf & _).
  { rewrite Hts. intros [|[|i]] t Hi; simpl in Hi;
      [injection Hi as <-; reflexivity..|discriminate Hi]. }
  exists order, rs, b. split; [exact Hperm|]. split; [exact Hall | exact Hf].
Defined.


(** [makeBar] is let through first: both goroutines get its trace. *)
Lemma racing_constructors_agree_witness :
  ∃ c, run_schedule [1; 1; 1; 1; 1; 1; 0; 0; 0; 0]
         (goroutines foo_and_bar untouched) = Some c
       ∧ ∃ v, (∀ i t, threads c !! i = Some t → t = Ret v)
              ∧ lookup_trace (fac (shared c)) "t1" = Some v
              ∧ new_trace_calls (history (shared c)) = 1.
Proof.
  destruct (run_schedule [1; 1; 1; 1; 1; 1; 0; 0; 0; 0]
              (goroutines foo_and_bar untouched))
    as [c|] eqn:Hrun; [|vm_compute in Hrun; discriminate Hrun].
  exists c. split; [reflexivity|].
  assert (threads c = [Ret (Some "Bar"); Ret (Some "Bar")]) as Hts.
  { vm_compute in Hrun. injection Hrun as <-. reflexivity. }
  destruct (racing_constructors_agree foo_and_bar "t1" untouched c
              ltac:(discriminate)
              ltac:(repeat constructor; eexists; reflexivity)
              eq_refl eq_refl
              (rtc_nsteps_2 _ _ _ (run_schedule_nsteps _ _ _ Hrun)))
    as (v & Hsame & Hn & Hcalls).
  { rewrite Hts. intros [|[|i]] t Hi; simpl in Hi;
      [injection Hi as <-; reflexivity..|discriminate Hi]. }
  exists v. split; [exact Hsame|]. split; [exact Hn | exact Hcalls].
Defined.

(** The first goroutine logs, the second deletes, the first finds nothing. *)
Lemma racing_Deletes_remove_once_witness :
  lookup_trace (fac one_trace) "t1" = Some (Some "Foo")
  ∧ ∃ c, run_schedule [0; 1; 1; 1; 1; 1; 0; 0; 0; 0]
           (goroutines (replicate 2 (CallDelete "t1")) one_trace) = Some c
         ∧ lookup_trace (fac (shared c)) "t1" = None
         ∧ count (removes_of "t1") (history (shared c)) = 1.
Proof.
  split; [vm_compute; reflexivity|].
  destruct (run_schedule [0; 1; 1; 1; 1; 1; 0; 0; 0; 0]
              (goroutines (replicate 2 (CallDelete "t1")) one_trace))
    as [c|] eqn:Hrun; [|vm_compute in Hrun; discriminate Hrun].
  exists c. split; [reflexivity|].
  assert (threads c = [Ret None; Ret None]) as Hts.
  { vm_compute in Hrun. injection Hrun as <-. reflexivity. }
  destruct (racing_Deletes_remove_once 2 "t1" (Some "Foo") one_trace c
              ltac:(lia) eq_refl ltac:(vm_compute; reflexivity)
              (rtc_nsteps_2 _ _ _ (run_schedule_nsteps _ _ _ Hrun)))
    as (Hgone & _ & _ & Hcount).
  { rewrite Hts. intros [|[|i]] t Hi; simpl in Hi;
      [injection Hi as <-; reflexivity..|discriminate Hi]. }
  split; [exact Hgone | exact Hcount].
Defined.
